(** * TicketDashboard: the per-ticket status-time and SLA computation

    A shallow embedding of the loop body of [src/app.py] (and of its
    older sibling [src/sla.py]): normalisation of the changelog into
    status changes, the chronological status timeline, the time spent in
    each status, the minute columns of the exported row and the SLA
    verdict.

    Conventions of the model.
    - An instant (an aware [datetime]) is an integer number of
      microseconds since the epoch, the resolution of [datetime].  A
      [timedelta] is the difference of two instants.
    - [total_seconds()] yields a float; the model keeps the exact value as
      a count of microseconds, so a duration bucket is an exact integer
      and [int(x / 60)] is truncation of the microsecond count by
      [60 * 10^6].  Rounding of binary floating point is not modelled.
    - [str.upper()] is modelled on ASCII letters; other bytes are kept.
    - [dateutil.parser.parse] is outside the repository: it is a
      parameter [parse], which yields an instant or fails.  Its failure
      is the exception that the script never catches.  The texts that it
      accepts are taken to carry a UTC offset, as Jira's do, so that any
      two instants can be compared and subtracted.
    - [list.sort(key=...)] is a stable sort; a stable sort by a totally
      ordered key has exactly one possible result, so it is modelled by a
      stable insertion sort. *)

From Stdlib Require Import ZArith String Ascii List Sorted Permutation Bool Lia.
From stdpp Require Import base option list gmap strings.

Local Open Scope string_scope.
Local Open Scope list_scope.
Local Open Scope Z_scope.

(** ** Strings: [str.upper()] and the [in] test on strings *)

Definition upper_ascii (c : ascii) : ascii :=
  let n := nat_of_ascii c in
  if ((97 <=? n)%nat && (n <=? 122)%nat)%bool then ascii_of_nat (n - 32) else c.

Fixpoint upper (s : string) : string :=
  match s with
  | EmptyString => EmptyString
  | String c r => String (upper_ascii c) (upper r)
  end.

(** [text.startswith(key)] *)
Fixpoint starts_with (key text : string) : bool :=
  match key, text with
  | EmptyString, _ => true
  | String _ _, EmptyString => false
  | String a key', String b text' => Ascii.eqb a b && starts_with key' text'
  end.

(** [key in text] on Python strings: [key] starts at some position. *)
Fixpoint contains (key text : string) : bool :=
  (starts_with key text
   || match text with
      | EmptyString => false
      | String _ r => contains key r
      end)%bool.

(** What [contains] decides: [key] occurs in [text] as a contiguous run. *)
Definition is_substring (key text : string) : Prop :=
  exists pre post : string, text = pre +:+ key +:+ post.

(** Truth value of a Python string: the empty string is falsy. *)
Definition truthy (s : string) : bool :=
  match s with
  | EmptyString => false
  | String _ _ => true
  end.

(** ** Configuration tables *)

Definition VALID_STATUSES : gset string :=
  {[ "OPEN"; "WORK IN PROGRESS"; "IN REVIEW"; "COMPLETED";
     "CANCELLED"; "CANCELED"; "CLOSED" ]}.

Definition FINAL_STATUSES : gset string :=
  {[ "COMPLETED"; "CLOSED"; "CANCELLED"; "CANCELED" ]}.

(** The dict literal [SLA_MINUTES]; a Python dict iterates in insertion
    order, so the table is the list of its items in the order written. *)
Definition SLA_MINUTES : list (string * Z) :=
  [ ("HIGHEST", 2 * 60);
    ("HIGH", 4 * 60);
    ("MEDIUM", 24 * 60);
    ("LOW", 48 * 60);
    ("LOWEST", 60 * 60) ].

(** ** [get_sla_minutes] *)

(** The [for key, minutes in SLA_MINUTES.items()] loop with its early
    [return]. *)
Fixpoint sla_scan (items : list (string * Z)) (priority_name : string)
  : option Z :=
  match items with
  | [] => None
  | (key, minutes) :: rest =>
      if contains key priority_name then Some minutes
      else sla_scan rest priority_name
  end.

Definition get_sla_minutes (priority_name : option string) : option Z :=
  match priority_name with
  | None => None
  | Some p =>
      if negb (truthy p) then None
      else sla_scan SLA_MINUTES (upper p)
  end.

(** ** The SLA verdict: the [if sla_minutes is None: ... else: ...] block.
    The result is the pair [(sla_status, time_breached_min)]. *)
Definition sla_verdict (sla_minutes : option Z) (time_to_resolution_min : Z)
  : option string * Z :=
  match sla_minutes with
  | None => (None, 0)
  | Some budget =>
      if time_to_resolution_min >? budget
      then (Some "Breached", time_to_resolution_min - budget)
      else (Some "Met", 0)
  end.

(** ** Input records: what the Jira client hands to the loop body *)

(** One entry of [history.items]. *)
Record Item := mkItem {
  item_field : string;
  item_fromString : option string;
  item_toString : string
}.

(** One entry of [issue.changelog.histories]. *)
Record History := mkHistory {
  history_created : string;
  history_items : list Item
}.

(** An issue: its key and the fields the computation reads.
    [fields_priority_name] is [fields.priority.name if fields.priority
    else None]. *)
Record Issue := mkIssue {
  issue_key : string;
  fields_created : string;
  fields_resolutiondate : option string;
  fields_status_name : string;
  fields_priority_name : option string;
  changelog_histories : list History
}.

(** An element of [status_changes]. *)
Record Change := mkChange {
  change_from : option string;
  change_to : string;
  change_time : Z
}.

(** The derived columns of an exported row. *)
Record Row := mkRow {
  row_issue_key : string;
  open_min : Z;
  wip_min : Z;
  review_min : Z;
  completed_min : Z;
  cancelled_min : Z;
  closed_min : Z;
  time_to_resolution_min : Z;
  sla_status : option string;
  time_breached_min : Z
}.

(** ** Exceptions *)

(** The only exception the loop body can raise on these inputs is the
    parser's; it carries the text that could not be read, and nothing
    else. *)
Inductive exn :=
  | ParserError (text : string).

Inductive result (A : Type) :=
  | Ok (a : A)
  | Raise (e : exn).
Arguments Ok {A} a.
Arguments Raise {A} e.

#[global] Instance result_ret : MRet result := fun _ a => Ok a.
#[global] Instance result_bind : MBind result := fun _ _ f r =>
  match r with
  | Ok a => f a
  | Raise e => Raise e
  end.

(** ** Stable sort by an integer key: [l.sort(key=...)] *)

Fixpoint insert_by {A : Type} (key : A -> Z) (x : A) (l : list A) : list A :=
  match l with
  | [] => [x]
  | y :: l' =>
      if key x <=? key y then x :: y :: l' else y :: insert_by key x l'
  end.

Definition sort_by {A : Type} (key : A -> Z) (l : list A) : list A :=
  foldr (insert_by key) [] l.

(** The order the sort establishes. *)
Definition key_le {A : Type} (key : A -> Z) (x y : A) : Prop :=
  key x <= key y.

(** ** Microseconds, seconds, minutes *)

Definition usec_per_sec : Z := 1000000.

(** [int(x / 60)] for a bucket [x] of seconds held as microseconds:
    [int] truncates towards zero. *)
Definition int_div_60 (x : Z) : Z := Z.quot x (60 * usec_per_sec).

(** [d.get(k, 0)] *)
Definition get0 (d : gmap string Z) (k : string) : Z := default 0 (d !! k).

(** ** The timeline and the time in each status ([src/app.py]) *)

Definition initial_status (status_changes : list Change) (status_name : string)
  : string :=
  match status_changes with
  | c :: _ =>
      match change_from c with
      | Some f => if truthy f then f else upper status_name
      | None => upper status_name
      end
  | [] => upper status_name
  end.

(** The entries in the order they are appended, before the sort. *)
Definition emitted (status_changes : list Change) (status_name : string)
    (created_time : Z) : list (string * Z) :=
  (if bool_decide (initial_status status_changes status_name ∈ VALID_STATUSES)
   then [(initial_status status_changes status_name, created_time)]
   else [])
  ++ omap (fun change =>
             if bool_decide (change_to change ∈ VALID_STATUSES)
             then Some (change_to change, change_time change)
             else None) status_changes.

Definition timeline (status_changes : list Change) (status_name : string)
    (created_time : Z) : list (string * Z) :=
  sort_by snd (emitted status_changes status_name created_time).

(** [timeline[i + 1][1] if i + 1 < len(timeline) else resolution_time] *)
Definition segment_end (tl : list (string * Z)) (resolution_time : Z)
    (i : nat) : Z :=
  match tl !! S i with
  | Some (_, t) => t
  | None => resolution_time
  end.

(** One iteration of [for i in range(len(timeline))]. *)
Definition segment_step (tl : list (string * Z)) (resolution_time : Z)
    (acc : gmap string Z) (i : nat) : gmap string Z :=
  match tl !! i with
  | None => acc
  | Some (status, start) =>
      let end_ := segment_end tl resolution_time i in
      if bool_decide (status ∈ FINAL_STATUSES) then acc
      else if end_ >? start
           then <[status := get0 acc status + (end_ - start)]> acc
           else acc
  end.

Definition time_in_status (tl : list (string * Z)) (resolution_time : Z)
  : gmap string Z :=
  foldl (segment_step tl resolution_time) ∅ (seq 0 (length tl)).

(** The six minute columns and their sum over the three working statuses. *)
Definition minutes_row (key : string) (d : gmap string Z)
    (priority_name : option string) : Row :=
  let open_min := int_div_60 (get0 d "OPEN") in
  let wip_min := int_div_60 (get0 d "WORK IN PROGRESS") in
  let review_min := int_div_60 (get0 d "IN REVIEW") in
  let completed_min := int_div_60 (get0 d "COMPLETED") in
  let cancelled_min := int_div_60 (get0 d "CANCELLED" + get0 d "CANCELED") in
  let closed_min := int_div_60 (get0 d "CLOSED") in
  let time_to_resolution_min := open_min + wip_min + review_min in
  let sla_minutes := get_sla_minutes priority_name in
  let '(sla_status, time_breached_min) :=
    sla_verdict sla_minutes time_to_resolution_min in
  mkRow key open_min wip_min review_min completed_min cancelled_min
        closed_min time_to_resolution_min sla_status time_breached_min.

(** ** The loop body of [src/app.py] *)

Section Pipeline.

(** [dateutil.parser.parse]: the instant a text denotes, if any. *)
Variable parse : string -> option Z.

Definition parser_parse (text : string) : result Z :=
  match parse text with
  | Some t => Ok t
  | None => Raise (ParserError text)
  end.

(** [for item in history.items], appending to [status_changes].  The
    history's timestamp is parsed once per status item, and not at all
    when the history has no status item. *)
Fixpoint collect_items (created : string) (items : list Item)
    (status_changes : list Change) : result (list Change) :=
  match items with
  | [] => Ok status_changes
  | item :: rest =>
      if String.eqb (item_field item) "status" then
        let from :=
          match item_fromString item with
          | Some f => if truthy f then Some (upper f) else None
          | None => None
          end in
        let to := upper (item_toString item) in
        time ← parser_parse created;
        collect_items created rest
          (status_changes ++ [mkChange from to time])
      else collect_items created rest status_changes
  end.

(** [for history in issue.changelog.histories] *)
Fixpoint collect_histories (histories : list History)
    (status_changes : list Change) : result (list Change) :=
  match histories with
  | [] => Ok status_changes
  | history :: rest =>
      status_changes' ← collect_items (history_created history)
                          (history_items history) status_changes;
      collect_histories rest status_changes'
  end.

(** [parser.parse(fields.resolutiondate) if fields.resolutiondate else now] *)
Definition resolution_boundary (now : Z) (resolutiondate : option string)
  : result Z :=
  match resolutiondate with
  | Some text => if truthy text then parser_parse text else Ok now
  | None => Ok now
  end.

Definition process_issue (now : Z) (issue : Issue) : result Row :=
  created_time ← parser_parse (fields_created issue);
  resolution_time ← resolution_boundary now (fields_resolutiondate issue);
  status_changes ← collect_histories (changelog_histories issue) [];
  let status_changes := sort_by change_time status_changes in
  let tl := timeline status_changes (fields_status_name issue) created_time in
  let d := time_in_status tl resolution_time in
  Ok (minutes_row (issue_key issue) d (fields_priority_name issue)).

(** [for idx, issue in enumerate(issues, start=1)]: the first exception
    ends the whole run; no row is kept. *)
Fixpoint process_issues (now : Z) (issues : list Issue) (rows : list Row)
  : result (list Row) :=
  match issues with
  | [] => Ok rows
  | issue :: rest =>
      row ← process_issue now issue;
      process_issues now rest (rows ++ [row])
  end.

End Pipeline.

(** ** The older variant: the loop body of [src/sla.py] *)

Module Sla.

Definition VALID_STATUSES : gset string :=
  {[ "OPEN"; "WORK IN PROGRESS"; "IN REVIEW"; "COMPLETED";
     "CANCELLED"; "CLOSED" ]}.

(** No terminal test and no test of the sign: every segment is added,
    and the last one ends at [now]. *)
Definition segment_step (tl : list (string * Z)) (now : Z)
    (acc : gmap string Z) (i : nat) : gmap string Z :=
  match tl !! i with
  | None => acc
  | Some (status, start) =>
      let end_ := segment_end tl now i in
      <[status := get0 acc status + (end_ - start)]> acc
  end.

Definition time_in_status (tl : list (string * Z)) (now : Z)
  : gmap string Z :=
  foldl (segment_step tl now) ∅ (seq 0 (length tl)).

(** The row of [src/sla.py]: only [CANCELLED] feeds the cancelled column,
    the verdict has a third value for unresolved tickets, and there is no
    breach column (kept at [0] here). *)
Definition minutes_row (key : string) (d : gmap string Z)
    (priority_name : option string) (resolutiondate : option string) : Row :=
  let open_min := int_div_60 (get0 d "OPEN") in
  let wip_min := int_div_60 (get0 d "WORK IN PROGRESS") in
  let review_min := int_div_60 (get0 d "IN REVIEW") in
  let completed_min := int_div_60 (get0 d "COMPLETED") in
  let cancelled_min := int_div_60 (get0 d "CANCELLED") in
  let closed_min := int_div_60 (get0 d "CLOSED") in
  let time_to_resolution_min := open_min + wip_min + review_min in
  let sla_status :=
    match get_sla_minutes priority_name with
    | None => None
    | Some sla_minutes =>
        if from_option truthy false resolutiondate
        then Some (if time_to_resolution_min <=? sla_minutes
                   then "Met" else "Breached")
        else Some (if time_to_resolution_min <=? sla_minutes
                   then "Within SLA" else "Breached")
    end in
  mkRow key open_min wip_min review_min completed_min cancelled_min
        closed_min time_to_resolution_min sla_status 0.

Section Pipeline.

Variable parse : string -> option Z.

(** Here the history's timestamp is parsed only for a status item
    whose new status is recognised. *)
Fixpoint collect_items (created : string) (items : list Item)
    (tl : list (string * Z)) : result (list (string * Z)) :=
  match items with
  | [] => Ok tl
  | item :: rest =>
      if String.eqb (item_field item) "status" then
        let status := upper (item_toString item) in
        if bool_decide (status ∈ VALID_STATUSES) then
          time ← parser_parse parse created;
          collect_items created rest (tl ++ [(status, time)])
        else collect_items created rest tl
      else collect_items created rest tl
  end.

Fixpoint collect_histories (histories : list History)
    (tl : list (string * Z)) : result (list (string * Z)) :=
  match histories with
  | [] => Ok tl
  | history :: rest =>
      tl' ← collect_items (history_created history)
              (history_items history) tl;
      collect_histories rest tl'
  end.

Definition process_issue (now : Z) (issue : Issue) : result Row :=
  created_time ← parser_parse parse (fields_created issue);
  tl ← collect_histories (changelog_histories issue)
         [(upper (fields_status_name issue), created_time)];
  let tl := sort_by snd tl in
  let d := time_in_status tl now in
  Ok (minutes_row (issue_key issue) d (fields_priority_name issue)
        (fields_resolutiondate issue)).

End Pipeline.

End Sla.

(** ** A stand-in clock reader for the worked examples

    The theorems below hold for every [parse].  Closed examples need one:
    this reader takes a run of decimal digits as a number of minutes after
    the epoch and rejects any other text. *)

Fixpoint digits_value (s : string) (acc : Z) : option Z :=
  match s with
  | EmptyString => Some acc
  | String c r =>
      let n := Z.of_nat (nat_of_ascii c) in
      if (48 <=? n) && (n <=? 57) then digits_value r (10 * acc + (n - 48))
      else None
  end.

Definition minutes_clock (text : string) : option Z :=
  if truthy text
  then option_map (fun m => m * 60 * usec_per_sec) (digits_value text 0)
  else None.

(** ** Reference quantities used in the statements *)

(** The time owed to status [s] by the segments of a timeline: a segment
    runs from an entry to the next one (to [resolution_time] for the last
    entry), belongs to the status of the entry that opens it, and counts
    when that status is not final and the segment has positive length. *)
Fixpoint attributed (s : string) (tl : list (string * Z)) (resolution_time : Z)
  : Z :=
  match tl with
  | [] => 0
  | (status, start) :: rest =>
      let end_ := match rest with
                  | (_, t) :: _ => t
                  | [] => resolution_time
                  end in
      (if bool_decide (status = s)
          && negb (bool_decide (status ∈ FINAL_STATUSES))
          && (end_ >? start)
       then end_ - start else 0)
      + attributed s rest resolution_time
  end.

(** The initial status as the specification words it: the [from] of the
    earliest status change when there is one, else the current status. *)
Definition claimed_initial_status (status_changes : list Change)
    (status_name : string) : option string :=
  match status_changes with
  | c :: _ => change_from c
  | [] => Some (upper status_name)
  end.

(** A ticket carries a timestamp text that the parser rejects. *)
Definition has_malformed_timestamp (parse : string -> option Z)
    (issue : Issue) : Prop :=
  parse (fields_created issue) = None
  ∨ (∃ text, fields_resolutiondate issue = Some text ∧ parse text = None)
  ∨ (∃ history, history ∈ changelog_histories issue
                ∧ parse (history_created history) = None).

(** The timestamp texts that the loop body of [src/app.py] hands to the
    parser: the creation time, a non-empty resolution time, and the time
    of every history that holds a status item. *)
Definition has_status_item (history : History) : Prop :=
  ∃ item, item ∈ history_items history ∧ item_field item = "status".

Definition parsed_text (issue : Issue) (text : string) : Prop :=
  text = fields_created issue
  ∨ (fields_resolutiondate issue = Some text ∧ text ≠ "")
  ∨ (∃ history, history ∈ changelog_histories issue
                ∧ has_status_item history
                ∧ text = history_created history).

(** The [from] of a change is absent or a non-empty text. *)
Definition from_ok (c : Change) : Prop :=
  ∀ f, change_from c = Some f → truthy f = true.

Definition with_priority (priority_name : option string) (issue : Issue)
  : Issue :=
  mkIssue (issue_key issue) (fields_created issue)
          (fields_resolutiondate issue) (fields_status_name issue)
          priority_name (changelog_histories issue).

(** ** Worked tickets *)

(** Created at minute 0 and resolved at minute 300, having moved to
    WORK IN PROGRESS at minute 90 and to COMPLETED at minute 300; the
    changelog lists the later history first. *)
Definition ticket_resolved (priority_name : option string) : Issue :=
  mkIssue "GNOC-1" "0" (Some "300") "Completed" priority_name
    [ mkHistory "300"
        [ mkItem "status" (Some "Work in Progress") "Completed" ];
      mkHistory "90"
        [ mkItem "assignee" None "someone";
          mkItem "status" (Some "Open") "Work in Progress" ] ].

(** No status item, unresolved, one history whose timestamp is not a
    timestamp. *)
Definition ticket_odd_history : Issue :=
  mkIssue "GNOC-2" "0" None "In Review" None
    [ mkHistory "not a date" [ mkItem "assignee" None "someone" ] ].

(** A status item whose [fromString] is missing. *)
Definition ticket_no_from : Issue :=
  mkIssue "GNOC-3" "0" None "Closed" (Some "Medium")
    [ mkHistory "5" [ mkItem "status" None "Work in Progress" ] ].

(** The creation time is not a timestamp. *)
Definition ticket_bad_created : Issue :=
  mkIssue "GNOC-4" "yesterday" None "Open" (Some "Low") [].

(** Another ticket; its resolution time is the same text. *)
Definition ticket_bad_resolved : Issue :=
  mkIssue "GNOC-5" "0" (Some "yesterday") "Closed" None [].

(** ** Further reference quantities *)

(** The change that one status item gives, at the instant [time] of its
    history: the dict appended to [status_changes]. *)
Definition item_change (time : Z) (item : Item) : Change :=
  mkChange
    match item_fromString item with
    | Some f => if truthy f then Some (upper f) else None
    | None => None
    end
    (upper (item_toString item))
    time.

(** The changes of one history, in the order of its items. *)
Definition history_changes (parse : string -> option Z) (history : History)
  : list Change :=
  match parse (history_created history) with
  | Some time =>
      item_change time
        <$> filter (λ item, item_field item = "status") (history_items history)
  | None => []
  end.

(** A ticket with another changelog. *)
Definition with_histories (histories : list History) (issue : Issue) : Issue :=
  mkIssue (issue_key issue) (fields_created issue)
          (fields_resolutiondate issue) (fields_status_name issue)
          (fields_priority_name issue) histories.

(** A changelog stripped of what is not a status change: the other items,
    then the histories left without any item. *)
Definition status_items_only (history : History) : History :=
  mkHistory (history_created history)
    (filter (λ item, item_field item = "status") (history_items history)).

Definition status_histories (histories : list History) : list History :=
  filter (λ history, history_items history ≠ [])
    (status_items_only <$> histories).




(** The sum of the buckets of a map of durations. *)
Definition map_sum (d : gmap string Z) : Z :=
  map_fold (λ _ v acc, v + acc) 0 d.

(** A ticket is resolved when [fields.resolutiondate] is truthy. *)
Definition resolved (issue : Issue) : Prop :=
  ∃ text, fields_resolutiondate issue = Some text ∧ text ≠ "".

(** A status item that [src/sla.py] keeps: its new status is recognised
    there. *)
Definition has_kept_item (history : History) : Prop :=
  ∃ item, item ∈ history_items history ∧ item_field item = "status"
          ∧ upper (item_toString item) ∈ Sla.VALID_STATUSES.

(** A decidable closed proposition, settled by evaluating its decision. *)
Ltac by_evaluation :=
  match goal with
  | |- ?P => apply (bool_decide_unpack P); vm_compute; exact I
  end.

(** * Properties *)

(** ** Strings *)

Lemma starts_with_spec (key text : string) :
  starts_with key text = true ↔ ∃ post, text = key +:+ post.
Proof.
  revert text. induction key as [|a key IH]; intros text.
  - split; [intros _; by exists text | done].
  - destruct text as [|b text]; simpl.
    + split; [done | intros [post H]; discriminate].
    + rewrite andb_true_iff, Ascii.eqb_eq, IH. split.
      * intros [-> [post ->]]. by exists post.
      * intros [post H]. injection H as -> ->. split; [done | by exists post].
Qed.

Lemma contains_spec (key text : string) :
  contains key text = true ↔ is_substring key text.
Proof.
  unfold is_substring. split.
  - induction text as [|c r IH]; simpl; rewrite orb_true_iff.
    + intros [H|H]; [|done]. apply starts_with_spec in H as [post ->].
      by exists "", post.
    + intros [H|H].
      * apply starts_with_spec in H as [post H]. by exists "", post.
      * destruct (IH H) as (pre & post & ->). by exists (String c pre), post.
  - intros (pre & post & ->). induction pre as [|c pre IH].
    + assert (starts_with key ("" +:+ key +:+ post) = true) as H
        by (apply starts_with_spec; by exists post).
      destruct ("" +:+ key +:+ post); simpl; by rewrite H.
    + change (String c pre +:+ key +:+ post)
        with (String c (pre +:+ key +:+ post)).
      simpl. rewrite IH. apply orb_true_r.
Qed.

Lemma contains_false (key text : string) :
  contains key text = false ↔ ¬ is_substring key text.
Proof.
  rewrite <- contains_spec. by destruct (contains key text).
Qed.

Lemma truthy_true (s : string) : truthy s = true ↔ s ≠ "".
Proof. destruct s; simpl; split; done. Qed.

Lemma upper_truthy (s : string) : truthy (upper s) = truthy s.
Proof. by destruct s. Qed.

(** ** The budget scan *)

Lemma sla_scan_Some (items : list (string * Z)) (p : string) (b : Z) :
  sla_scan items p = Some b ↔
  ∃ (i : nat) (key : string),
    items !! i = Some (key, b) ∧ contains key p = true
    ∧ ∀ (j : nat) (kv : string * Z),
        (j < i)%nat → items !! j = Some kv → contains kv.1 p = false.
Proof.
  induction items as [|[key minutes] rest IH]; simpl.
  - split; [done | by intros (i & k & H & _)].
  - destruct (contains key p) eqn:Hc.
    + split.
      * intros [= <-]. exists 0%nat, key. repeat split; try done. lia.
      * intros (i & k & Hi & Hk & Hj). destruct i as [|i].
        -- by injection Hi as _ ->.
        -- specialize (Hj 0%nat (key, minutes) ltac:(lia) eq_refl).
           simpl in Hj. congruence.
    + rewrite IH. split.
      * intros (i & k & Hi & Hk & Hj). exists (S i), k. repeat split; try done.
        intros [|j] kv Hlt Hkv.
        -- by injection Hkv as <-.
        -- apply (Hj j); [lia | done].
      * intros (i & k & Hi & Hk & Hj). destruct i as [|i].
        -- injection Hi as -> ->. congruence.
        -- exists i, k. repeat split; try done.
           intros j kv Hlt Hkv. apply (Hj (S j)); [lia | done].
Qed.

Lemma sla_scan_None (items : list (string * Z)) (p : string) :
  sla_scan items p = None ↔ ∀ kv, kv ∈ items → contains kv.1 p = false.
Proof.
  induction items as [|[key minutes] rest IH]; simpl.
  - split; [intros _ kv H; by apply not_elem_of_nil in H | done].
  - destruct (contains key p) eqn:Hc.
    + split; [done |]. intros H.
      specialize (H (key, minutes) ltac:(left)). simpl in H. congruence.
    + rewrite IH. split.
      * intros H kv Hkv. apply elem_of_cons in Hkv as [->|Hkv]; [done | auto].
      * intros H kv Hkv. apply H. by right.
Qed.

(** ** The stable sort *)

Section sort_by.

Context {A : Type} (key : A → Z).

(** Where [insert_by] puts the new element: after the elements with a
    strictly smaller key, before the first one with a key at least as
    large. *)
Lemma insert_by_split (x : A) (l : list A) :
  ∃ l1 l2, l = l1 ++ l2
           ∧ insert_by key x l = l1 ++ x :: l2
           ∧ Forall (λ y, key y < key x) l1.
Proof.
  induction l as [|y l IH]; simpl.
  - by exists [], [].
  - destruct (Z.leb_spec (key x) (key y)) as [Hle|Hlt].
    + by exists [], (y :: l).
    + destruct IH as (l1 & l2 & -> & -> & Hall).
      exists (y :: l1), l2. repeat split; try done. by constructor.
Qed.

Lemma insert_by_perm (x : A) (l : list A) : insert_by key x l ≡ₚ x :: l.
Proof.
  destruct (insert_by_split x l) as (l1 & l2 & -> & -> & _).
  by rewrite Permutation_middle.
Qed.

Lemma sort_by_perm (l : list A) : sort_by key l ≡ₚ l.
Proof.
  induction l as [|x l IH]; simpl; [done |].
  by rewrite insert_by_perm, IH.
Qed.

Lemma insert_by_sorted (x : A) (l : list A) :
  StronglySorted (key_le key) l → StronglySorted (key_le key) (insert_by key x l).
Proof.
  induction 1 as [|y l Hs IH Hall]; simpl.
  - repeat constructor.
  - destruct (Z.leb_spec (key x) (key y)) as [Hle|Hlt].
    + constructor; [by constructor |]. constructor; [done |].
      eapply Forall_impl; [exact Hall |]. unfold key_le. simpl. lia.
    + constructor; [done |]. rewrite insert_by_perm.
      constructor; [unfold key_le; lia | done].
Qed.

Lemma sort_by_sorted (l : list A) : StronglySorted (key_le key) (sort_by key l).
Proof.
  induction l as [|x l IH]; simpl; [constructor |].
  by apply insert_by_sorted.
Qed.

(** A sorted list read by positions. *)
Lemma sorted_lookup (l : list A) (i j : nat) (a b : A) :
  StronglySorted (key_le key) l → (i ≤ j)%nat →
  l !! i = Some a → l !! j = Some b → key a <= key b.
Proof.
  intros Hs. revert i j. induction Hs as [|y l Hs IH Hall]; intros i j Hij Hi Hj.
  - done.
  - destruct i as [|i], j as [|j]; simpl in *; try lia.
    + injection Hi as <-. injection Hj as <-. lia.
    + injection Hi as <-. rewrite Forall_forall in Hall.
      apply (Hall b). by eapply list_elem_of_lookup_2.
    + apply (IH i j); [lia | done | done].
Qed.

(** Stability: the entries with a given key come out in the order they
    went in. *)
Lemma insert_by_filter (t : Z) (x : A) (l : list A) :
  filter (λ y, key y = t) (insert_by key x l)
  = filter (λ y, key y = t) (x :: l).
Proof.
  induction l as [|y l IH]; simpl; [done |].
  destruct (Z.leb_spec (key x) (key y)) as [Hle|Hlt]; [done |].
  rewrite (filter_cons _ y (insert_by key x l)), IH.
  rewrite !filter_cons.
  destruct (decide (key x = t)), (decide (key y = t)); try done. lia.
Qed.

Lemma sort_by_stable (t : Z) (l : list A) :
  filter (λ y, key y = t) (sort_by key l) = filter (λ y, key y = t) l.
Proof.
  induction l as [|x l IH]; simpl; [done |].
  by rewrite insert_by_filter, !filter_cons, IH.
Qed.

(** The head of the input ends up ahead of every entry whose key is not
    strictly smaller. *)
Lemma sort_by_head_position (x : A) (l : list A) :
  ∃ i : nat, sort_by key (x :: l) !! i = Some x
    ∧ ∀ (j : nat) (y : A),
        (j < i)%nat → sort_by key (x :: l) !! j = Some y → key y < key x.
Proof.
  simpl. destruct (insert_by_split x (sort_by key l))
    as (l1 & l2 & _ & -> & Hall).
  exists (length l1). split.
  - by rewrite list_lookup_middle.
  - intros j y Hj Hy. rewrite lookup_app_l in Hy by done.
    rewrite Forall_forall in Hall. apply Hall.
    by eapply list_elem_of_lookup_2.
Qed.

(** The first element of the sorted list has the least key. *)
Lemma sort_by_head_least (l : list A) (c : A) (rest : list A) :
  sort_by key l = c :: rest → ∀ c', c' ∈ l → key c <= key c'.
Proof.
  intros Heq c' Hin. pose proof (sort_by_sorted l) as Hs.
  rewrite <- (sort_by_perm l) in Hin. rewrite Heq in Hs, Hin.
  apply StronglySorted_inv in Hs as [_ Hall].
  apply elem_of_cons in Hin as [->|Hin]; [lia |].
  rewrite Forall_forall in Hall. by apply Hall.
Qed.

(** A stable sort has one possible result: a sorted list that keeps, for
    each key, the entries of [l] with that key in their order is
    [sort_by key l].  So it does not matter which stable sorting
    algorithm [list.sort] runs. *)
Lemma sorted_head_least (x y : A) (l1 l2 : list A) :
  StronglySorted (key_le key) (y :: l2) →
  filter (λ z, key z = key x) (x :: l1)
  = filter (λ z, key z = key x) (y :: l2) →
  key y <= key x.
Proof.
  intros Hs Hf. rewrite (filter_cons_True _ x l1) in Hf by done.
  assert (x ∈ filter (λ z, key z = key x) (y :: l2)) as Hin
    by (rewrite <- Hf; left).
  apply list_elem_of_filter in Hin as [_ Hin].
  apply StronglySorted_inv in Hs as [_ Hall].
  apply elem_of_cons in Hin as [->|Hin]; [lia |].
  rewrite Forall_forall in Hall. by apply Hall.
Qed.

Lemma stable_sorted_unique (l1 l2 : list A) :
  StronglySorted (key_le key) l1 → StronglySorted (key_le key) l2 →
  (∀ t : Z, filter (λ z, key z = t) l1 = filter (λ z, key z = t) l2) →
  l1 = l2.
Proof.
  revert l2. induction l1 as [|x l1 IH]; intros l2 Hs1 Hs2 Hf.
  - destruct l2 as [|y l2]; [done |]. specialize (Hf (key y)).
    rewrite (filter_cons_True _ y l2) in Hf by done. discriminate Hf.
  - destruct l2 as [|y l2].
    + specialize (Hf (key x)).
      rewrite (filter_cons_True _ x l1) in Hf by done. discriminate Hf.
    + assert (key x = key y) as Hk.
      { pose proof (sorted_head_least x y l1 l2 Hs2 (Hf (key x))).
        pose proof (sorted_head_least y x l2 l1 Hs1 (eq_sym (Hf (key y)))).
        lia. }
      assert (x = y) as <-.
      { specialize (Hf (key x)).
        rewrite (filter_cons_True _ x l1) in Hf by done.
        rewrite (filter_cons_True _ y l2) in Hf by done.
        by injection Hf. }
      f_equal. apply StronglySorted_inv in Hs1 as [Hs1 _].
      apply StronglySorted_inv in Hs2 as [Hs2 _].
      apply IH; [done | done |]. intros t. specialize (Hf t).
      rewrite !filter_cons in Hf.
      destruct (decide (key x = t)); [by injection Hf | done].
Qed.

Lemma sort_by_unique (l l' : list A) :
  StronglySorted (key_le key) l' →
  (∀ t : Z, filter (λ z, key z = t) l' = filter (λ z, key z = t) l) →
  l' = sort_by key l.
Proof.
  intros Hs Hf. apply stable_sorted_unique; [done | apply sort_by_sorted |].
  intros t. by rewrite sort_by_stable.
Qed.

End sort_by.

(** ** The time in each status *)

Lemma get0_insert (d : gmap string Z) (k s : string) (v : Z) :
  get0 (<[k := v]> d) s = if decide (k = s) then v else get0 d s.
Proof. unfold get0. rewrite lookup_insert. by destruct (decide (k = s)). Qed.

Lemma attributed_nonneg (s : string) (tl : list (string * Z)) (res : Z) :
  0 <= attributed s tl res.
Proof.
  induction tl as [|[status start] rest IH]; simpl; [lia |].
  match goal with |- context [if ?c then _ else _] => destruct c eqn:Hc end;
    [|lia].
  apply andb_prop in Hc as [_ Hc]. apply Z.gtb_lt in Hc. lia.
Qed.

Lemma attributed_final (s : string) (tl : list (string * Z)) (res : Z) :
  s ∈ FINAL_STATUSES → attributed s tl res = 0.
Proof.
  intros Hs. induction tl as [|[status start] rest IH]; simpl; [done |].
  rewrite IH. destruct (bool_decide_reflect (status = s)) as [->|]; [|done].
  by rewrite (bool_decide_eq_true_2 _ Hs).
Qed.

(** One iteration touches the bucket of the entry's own status only, and
    only for a non-final status and a segment of positive length. *)
Lemma segment_step_lookup (tl : list (string * Z)) (res : Z)
    (acc : gmap string Z) (i : nat) (status : string) (start : Z) (s : string) :
  tl !! i = Some (status, start) →
  segment_step tl res acc i !! s
  = if bool_decide (status = s)
       && negb (bool_decide (status ∈ FINAL_STATUSES))
       && (segment_end tl res i >? start)
    then Some (get0 acc s + (segment_end tl res i - start))
    else acc !! s.
Proof.
  intros Hi. unfold segment_step. rewrite Hi. simpl.
  destruct (bool_decide (status ∈ FINAL_STATUSES)); simpl.
  - by rewrite andb_false_r.
  - rewrite andb_true_r.
    destruct (segment_end tl res i >? start); simpl.
    + rewrite andb_true_r, lookup_insert.
      destruct (bool_decide_reflect (status = s)) as [->|Hne].
      * by rewrite decide_True.
      * by rewrite decide_False.
    + by rewrite andb_false_r.
Qed.

Lemma segment_end_middle (pre rest : list (string * Z)) (e : string * Z)
    (res : Z) :
  segment_end (pre ++ e :: rest) res (length pre)
  = match rest with
    | (_, t) :: _ => t
    | [] => res
    end.
Proof.
  unfold segment_end.
  replace (pre ++ e :: rest) with ((pre ++ [e]) ++ rest)
    by (by rewrite <- app_assoc).
  replace (S (length pre)) with (length (pre ++ [e]) + 0)%nat
    by (rewrite length_app; simpl; lia).
  rewrite lookup_app_r by lia.
  replace (length (pre ++ [e]) + 0 - length (pre ++ [e]))%nat with 0%nat by lia.
  by destruct rest as [|[? ?] ?].
Qed.

(** The loop over positions, started anywhere in the timeline, adds to
    each bucket what [attributed] says of the remaining entries. *)
Lemma fold_segment_step_lookup (pre tl : list (string * Z)) (res : Z)
    (acc : gmap string Z) (s : string) :
  foldl (segment_step (pre ++ tl) res) acc (seq (length pre) (length tl)) !! s
  = if 0 <? attributed s tl res
    then Some (get0 acc s + attributed s tl res)
    else acc !! s.
Proof.
  revert pre acc. induction tl as [|[status start] rest IH]; intros pre acc.
  - done.
  - simpl length. simpl seq. simpl foldl.
    replace (pre ++ (status, start) :: rest)
      with ((pre ++ [(status, start)]) ++ rest) at 1
      by (by rewrite <- app_assoc).
    replace (S (length pre)) with (length (pre ++ [(status, start)]))
      by (rewrite length_app; simpl; lia).
    rewrite IH. clear IH.
    pose proof (attributed_nonneg s rest res) as Hnn.
    pose proof (segment_step_lookup (pre ++ (status, start) :: rest) res acc
                  (length pre) status start s) as Hstep.
    rewrite list_lookup_middle in Hstep by done. specialize (Hstep eq_refl).
    rewrite segment_end_middle in Hstep.
    unfold get0 at 1. rewrite Hstep. clear Hstep.
    simpl attributed.
    set (end_ := match rest with (_, t) :: _ => t | [] => res end).
    set (A := attributed s rest res) in *.
    destruct (bool_decide (status = s)
              && negb (bool_decide (status ∈ FINAL_STATUSES))
              && (end_ >? start)) eqn:Hc; simpl.
    + apply andb_prop in Hc as [_ Hc]. apply Z.gtb_lt in Hc.
      destruct (Z.ltb_spec 0 A), (Z.ltb_spec 0 (end_ - start + A));
        try lia; f_equal; lia.
    + replace (0 + A) with A by lia. fold (get0 acc s).
      by destruct (0 <? A).
Qed.

Lemma time_in_status_lookup (tl : list (string * Z)) (res : Z) (s : string) :
  time_in_status tl res !! s
  = if 0 <? attributed s tl res then Some (attributed s tl res) else None.
Proof.
  unfold time_in_status.
  pose proof (fold_segment_step_lookup [] tl res ∅ s) as H.
  simpl in H. rewrite H. unfold get0. rewrite lookup_empty. simpl.
  by destruct (0 <? attributed s tl res).
Qed.

Lemma time_in_status_get0 (tl : list (string * Z)) (res : Z) (s : string) :
  get0 (time_in_status tl res) s = attributed s tl res.
Proof.
  unfold get0. rewrite time_in_status_lookup.
  pose proof (attributed_nonneg s tl res).
  destruct (Z.ltb_spec 0 (attributed s tl res)); simpl; lia.
Qed.

Lemma int_div_60_nonneg (x : Z) : 0 <= x → 0 <= int_div_60 x.
Proof. intros H. unfold int_div_60. by apply Z.quot_pos. Qed.

(** ** Exceptions and the collection of status changes *)

Lemma bind_Ok {A B : Type} (m : result A) (f : A → result B) (b : B) :
  m ≫= f = Ok b ↔ ∃ a, m = Ok a ∧ f a = Ok b.
Proof.
  destruct m as [a|e]; simpl; split.
  - intros H. by exists a.
  - by intros (a' & [= <-] & H).
  - done.
  - by intros (a' & H & _).
Qed.

Lemma bind_Raise {A B : Type} (m : result A) (f : A → result B) (e : exn) :
  m ≫= f = Raise e ↔ m = Raise e ∨ ∃ a, m = Ok a ∧ f a = Raise e.
Proof.
  destruct m as [a|e']; simpl; split.
  - intros H. right. by exists a.
  - intros [H | (a' & [= <-] & H)]; done.
  - intros [= ->]. by left.
  - intros [[= ->] | (a' & H & _)]; done.
Qed.

Section pipeline_facts.

Variable parse : string → option Z.

Lemma parser_parse_Ok (text : string) (t : Z) :
  parser_parse parse text = Ok t ↔ parse text = Some t.
Proof.
  unfold parser_parse. destruct (parse text); split; congruence.
Qed.

Lemma parser_parse_Raise (text : string) (e : exn) :
  parser_parse parse text = Raise e ↔ parse text = None ∧ e = ParserError text.
Proof.
  unfold parser_parse. destruct (parse text); split; try done.
  - by intros [H _].
  - by intros [= <-].
  - by intros [_ ->].
Qed.

Lemma collect_items_from (created : string) (items : list Item)
    (acc cs : list Change) :
  Forall from_ok acc →
  collect_items parse created items acc = Ok cs → Forall from_ok cs.
Proof.
  revert acc. induction items as [|item rest IH]; intros acc Hacc; simpl.
  - by intros [= <-].
  - destruct (item_field item =? "status")%string; [|by apply IH].
    rewrite bind_Ok. intros (t & _ & H). eapply IH; [|exact H].
    apply Forall_app. split; [done |]. constructor; [|done].
    intros f. simpl. destruct (item_fromString item) as [g|]; [|done].
    destruct (truthy g) eqn:Hg; [|done]. intros [= <-].
    by rewrite upper_truthy.
Qed.

Lemma collect_histories_from (histories : list History)
    (acc cs : list Change) :
  Forall from_ok acc →
  collect_histories parse histories acc = Ok cs → Forall from_ok cs.
Proof.
  revert acc. induction histories as [|h rest IH]; intros acc Hacc; simpl.
  - by intros [= <-].
  - rewrite bind_Ok. intros (acc' & H1 & H2).
    eapply IH; [|exact H2]. by eapply collect_items_from.
Qed.

(** When a history is read, the parser fails exactly if the history
    holds a status item and its timestamp is rejected. *)
Lemma collect_items_Raise (created : string) (items : list Item)
    (acc : list Change) (e : exn) :
  collect_items parse created items acc = Raise e ↔
  (∃ item, item ∈ items ∧ item_field item = "status")
  ∧ parse created = None ∧ e = ParserError created.
Proof.
  revert acc. induction items as [|item rest IH]; intros acc; simpl.
  - split; [done |]. intros [(item & H & _) _]. by apply not_elem_of_nil in H.
  - destruct (String.eqb_spec (item_field item) "status") as [Hf|Hf].
    + rewrite bind_Raise, parser_parse_Raise. split.
      * intros [[Hp ->] | (t & Ht & H)].
        -- split; [|done]. exists item. split; [left | done].
        -- apply IH in H as (_ & Hp & _). apply parser_parse_Ok in Ht.
           congruence.
      * intros (_ & Hp & ->). by left.
    + rewrite IH. split.
      * intros ((it & Hin & Hit) & Hp & ->). split; [|done].
        exists it. split; [by right | done].
      * intros ((it & Hin & Hit) & Hp & ->). split; [|done].
        apply elem_of_cons in Hin as [->|Hin]; [done |]. by exists it.
Qed.

Lemma collect_histories_Raise (histories : list History)
    (acc : list Change) (e : exn) :
  collect_histories parse histories acc = Raise e →
  ∃ history, history ∈ histories ∧ has_status_item history
             ∧ parse (history_created history) = None
             ∧ e = ParserError (history_created history).
Proof.
  revert acc. induction histories as [|h rest IH]; intros acc; simpl.
  - done.
  - rewrite bind_Raise. intros [H | (acc' & _ & H)].
    + apply collect_items_Raise in H as (Hi & Hp & ->).
      exists h. repeat split; [left | done | done].
    + destruct (IH _ H) as (h' & Hin & Hrest). exists h'.
      split; [by right | done].
Qed.

Lemma collect_histories_fails (histories : list History)
    (acc : list Change) (history : History) :
  history ∈ histories → has_status_item history →
  parse (history_created history) = None →
  ∃ e, collect_histories parse histories acc = Raise e.
Proof.
  intros Hin Hitem Hp. revert acc.
  induction histories as [|h rest IH]; intros acc.
  - by apply not_elem_of_nil in Hin.
  - simpl.
    destruct (collect_items parse (history_created h) (history_items h) acc)
      as [acc'|e] eqn:Hc; simpl; [|by exists e].
    apply elem_of_cons in Hin as [->|Hin]; [|by apply IH].
    assert (collect_items parse (history_created h) (history_items h) acc
            = Raise (ParserError (history_created h))) as Hr
      by (by apply collect_items_Raise).
    congruence.
Qed.

Lemma resolution_boundary_Raise (now : Z) (resolutiondate : option string)
    (e : exn) :
  resolution_boundary parse now resolutiondate = Raise e ↔
  ∃ text, resolutiondate = Some text ∧ text ≠ ""
          ∧ parse text = None ∧ e = ParserError text.
Proof.
  unfold resolution_boundary. destruct resolutiondate as [text|].
  - destruct text as [|c r]; simpl.
    + split; [done |]. by intros (text & [= <-] & H & _).
    + rewrite parser_parse_Raise. split.
      * intros [Hp ->]. by exists (String c r).
      * by intros (text & [= <-] & _ & Hp & ->).
  - split; [done |]. by intros (text & H & _).
Qed.

(** The row of a ticket that is processed without an exception. *)
Lemma process_issue_Ok (now : Z) (issue : Issue) (row : Row) :
  process_issue parse now issue = Ok row ↔
  ∃ created_time resolution_time cs,
    parse (fields_created issue) = Some created_time
    ∧ resolution_boundary parse now (fields_resolutiondate issue)
      = Ok resolution_time
    ∧ collect_histories parse (changelog_histories issue) [] = Ok cs
    ∧ row = minutes_row (issue_key issue)
              (time_in_status
                 (timeline (sort_by change_time cs)
                    (fields_status_name issue) created_time)
                 resolution_time)
              (fields_priority_name issue).
Proof.
  unfold process_issue. rewrite bind_Ok. split.
  - intros (ct & Hct & H). apply bind_Ok in H as (rt & Hrt & H).
    apply bind_Ok in H as (cs & Hcs & H). injection H as <-.
    apply parser_parse_Ok in Hct. by exists ct, rt, cs.
  - intros (ct & rt & cs & Hct & Hrt & Hcs & ->).
    exists ct. split; [by apply parser_parse_Ok |].
    apply bind_Ok. exists rt. split; [done |].
    apply bind_Ok. by exists cs.
Qed.

(** The exceptions of a ticket: the parser's, on one of the texts that
    are handed to it. *)
Lemma process_issue_Raise (now : Z) (issue : Issue) (e : exn) :
  process_issue parse now issue = Raise e →
  ∃ text, parsed_text issue text ∧ parse text = None ∧ e = ParserError text.
Proof.
  unfold process_issue. rewrite bind_Raise.
  intros [H | (ct & _ & H)].
  - apply parser_parse_Raise in H as [Hp ->].
    exists (fields_created issue). repeat split; [by left | done].
  - apply bind_Raise in H as [H | (rt & _ & H)].
    + apply resolution_boundary_Raise in H as (text & Hr & Hne & Hp & ->).
      exists text. repeat split; [right; by left | done].
    + apply bind_Raise in H as [H | (cs & _ & H)]; [|done].
      apply collect_histories_Raise in H as (h & Hin & Hitem & Hp & ->).
      exists (history_created h). repeat split; [|done].
      right; right. by exists h.
Qed.

Lemma process_issue_fails (now : Z) (issue : Issue) (text : string) :
  parsed_text issue text → parse text = None →
  ∃ e, process_issue parse now issue = Raise e.
Proof.
  intros Htext Hp. unfold process_issue.
  destruct (parser_parse parse (fields_created issue)) as [ct|e] eqn:Hct;
    simpl; [|by exists e].
  destruct (resolution_boundary parse now (fields_resolutiondate issue))
    as [rt|e] eqn:Hrt; simpl; [|by exists e].
  destruct (collect_histories parse (changelog_histories issue) [])
    as [cs|e] eqn:Hcs; simpl; [|by exists e].
  exfalso. destruct Htext as [-> | [[Hr Hne] | (h & Hin & Hitem & ->)]].
  - apply parser_parse_Ok in Hct. congruence.
  - assert (resolution_boundary parse now (fields_resolutiondate issue)
            = Raise (ParserError text)) as H
      by (apply resolution_boundary_Raise; by exists text).
    congruence.
  - destruct (collect_histories_fails (changelog_histories issue) [] h
                Hin Hitem Hp) as [e He].
    congruence.
Qed.

End pipeline_facts.

(** ** The row *)

Lemma minutes_row_fields (key : string) (d : gmap string Z)
    (priority_name : option string) :
  let row := minutes_row key d priority_name in
  open_min row = int_div_60 (get0 d "OPEN")
  ∧ wip_min row = int_div_60 (get0 d "WORK IN PROGRESS")
  ∧ review_min row = int_div_60 (get0 d "IN REVIEW")
  ∧ completed_min row = int_div_60 (get0 d "COMPLETED")
  ∧ cancelled_min row = int_div_60 (get0 d "CANCELLED" + get0 d "CANCELED")
  ∧ closed_min row = int_div_60 (get0 d "CLOSED")
  ∧ time_to_resolution_min row = open_min row + wip_min row + review_min row
  ∧ (sla_status row, time_breached_min row)
    = sla_verdict (get_sla_minutes priority_name) (time_to_resolution_min row).
Proof.
  unfold minutes_row.
  destruct (sla_verdict (get_sla_minutes priority_name)
              (int_div_60 (get0 d "OPEN")
               + int_div_60 (get0 d "WORK IN PROGRESS")
               + int_div_60 (get0 d "IN REVIEW"))) as [st br] eqn:Hv.
  simpl. by rewrite Hv.
Qed.

Lemma final_statuses_spec (s : string) :
  s ∈ FINAL_STATUSES ↔
  s = "COMPLETED" ∨ s = "CANCELLED" ∨ s = "CANCELED" ∨ s = "CLOSED".
Proof.
  unfold FINAL_STATUSES. rewrite !elem_of_union, !elem_of_singleton. tauto.
Qed.

(** ** The worked tickets, evaluated *)

Example resolved_high :
  process_issue minutes_clock (400 * 60 * usec_per_sec)
    (ticket_resolved (Some "High"))
  = Ok (mkRow "GNOC-1" 90 210 0 0 0 0 300 (Some "Breached") 60).
Proof. vm_compute. reflexivity. Qed.

Example resolved_lowest :
  process_issue minutes_clock (400 * 60 * usec_per_sec)
    (ticket_resolved (Some "Lowest"))
  = Ok (mkRow "GNOC-1" 90 210 0 0 0 0 300 (Some "Met") 0).
Proof. vm_compute. reflexivity. Qed.

Example unresolved_in_review :
  process_issue minutes_clock (30 * 60 * usec_per_sec) ticket_odd_history
  = Ok (mkRow "GNOC-2" 0 0 30 0 0 0 30 None 0).
Proof. vm_compute. reflexivity. Qed.

(** LOW occurs in LOWEST and is tried first: the text "Lowest" gets the
    LOW budget. *)
Example lowest_gets_low_budget :
  get_sla_minutes (Some "Lowest") = Some (48 * 60).
Proof. reflexivity. Qed.

(** * The claims *)

(** C1. A segment of the timeline runs from an entry to the next entry
    (to the resolution boundary for the last one) and is added to the
    bucket of the entry that opens it only when that entry's status is not
    final: every bucket of [time_in_status] holds exactly the sum of the
    positive segments opened by a non-final entry of that status, an
    iteration on a final entry leaves the map as it was, and a final
    status (COMPLETED, CANCELLED, CANCELED, CLOSED) has no bucket, hence
    zero minutes. *)
Theorem time_in_status_skips_final (tl : list (string * Z))
    (resolution_time : Z) (s : string) :
  time_in_status tl resolution_time !! s
  = (if 0 <? attributed s tl resolution_time
     then Some (attributed s tl resolution_time) else None)
  ∧ (s ∈ FINAL_STATUSES ↔
     s = "COMPLETED" ∨ s = "CANCELLED" ∨ s = "CANCELED" ∨ s = "CLOSED")
  ∧ (s ∈ FINAL_STATUSES →
     (∀ acc i start, tl !! i = Some (s, start) →
                     segment_step tl resolution_time acc i = acc)
     ∧ time_in_status tl resolution_time !! s = None
     ∧ int_div_60 (get0 (time_in_status tl resolution_time) s) = 0).
Proof.
  split; [apply time_in_status_lookup |].
  split; [apply final_statuses_spec |].
  intros Hs. repeat split.
  - intros acc i start Hi. unfold segment_step. rewrite Hi. simpl.
    by rewrite (bool_decide_eq_true_2 _ Hs).
  - by rewrite time_in_status_lookup, attributed_final.
  - by rewrite time_in_status_get0, attributed_final.
Qed.

Lemma time_in_status_skips_final_witness :
  "COMPLETED" ∈ FINAL_STATUSES
  ∧ time_in_status [("OPEN", 0); ("COMPLETED", 5); ("OPEN", 7)] 9
      !! "COMPLETED" = None.
Proof.
  assert ("COMPLETED" ∈ FINAL_STATUSES) as H
    by by_evaluation.
  split; [exact H |].
  apply (time_in_status_skips_final
           [("OPEN", 0); ("COMPLETED", 5); ("OPEN", 7)] 9 "COMPLETED").
  exact H.
Defined.

(** C2. Whatever the status changes, the timeline's timestamps never
    decrease from one position to a later one; the timeline holds exactly
    the emitted entries; the entries that share a timestamp keep the
    order in which they were emitted; and the entry made from the
    creation time, when there is one, comes before every entry whose
    timestamp is not strictly earlier, so before every transition with
    the same timestamp. *)
Theorem timeline_sorted_stable (status_changes : list Change)
    (status_name : string) (created_time : Z) :
  (∀ (i j : nat) (a b : string * Z),
     (i ≤ j)%nat →
     timeline status_changes status_name created_time !! i = Some a →
     timeline status_changes status_name created_time !! j = Some b →
     a.2 <= b.2)
  ∧ timeline status_changes status_name created_time
    ≡ₚ emitted status_changes status_name created_time
  ∧ (∀ t : Z,
       filter (λ e, e.2 = t) (timeline status_changes status_name created_time)
       = filter (λ e, e.2 = t)
           (emitted status_changes status_name created_time))
  ∧ (initial_status status_changes status_name ∈ VALID_STATUSES →
     ∃ i : nat,
       timeline status_changes status_name created_time !! i
       = Some (initial_status status_changes status_name, created_time)
       ∧ ∀ (j : nat) (e : string * Z),
           (j < i)%nat →
           timeline status_changes status_name created_time !! j = Some e →
           e.2 < created_time).
Proof.
  unfold timeline. repeat split.
  - intros i j a b Hij Ha Hb.
    exact (sorted_lookup snd _ i j a b (sort_by_sorted snd _) Hij Ha Hb).
  - apply sort_by_perm.
  - intros t. apply (sort_by_stable snd).
  - intros Hv. unfold emitted. rewrite (bool_decide_eq_true_2 _ Hv).
    apply (sort_by_head_position snd).
Qed.

Lemma timeline_sorted_stable_witness :
  initial_status [mkChange (Some "OPEN") "CLOSED" 0] "Closed" ∈ VALID_STATUSES
  ∧ ∃ i : nat,
      timeline [mkChange (Some "OPEN") "CLOSED" 0] "Closed" 0 !! i
      = Some (initial_status [mkChange (Some "OPEN") "CLOSED" 0] "Closed", 0)
      ∧ ∀ (j : nat) (e : string * Z),
          (j < i)%nat →
          timeline [mkChange (Some "OPEN") "CLOSED" 0] "Closed" 0 !! j = Some e →
          e.2 < 0.
Proof.
  assert (initial_status [mkChange (Some "OPEN") "CLOSED" 0] "Closed"
          ∈ VALID_STATUSES) as H
    by by_evaluation.
  split; [exact H |].
  apply (timeline_sorted_stable [mkChange (Some "OPEN") "CLOSED" 0] "Closed" 0).
  exact H.
Defined.

(** C3. For a non-empty priority text, [get_sla_minutes] tries the tokens
    in the order HIGHEST, HIGH, MEDIUM, LOW, LOWEST and returns the budget
    of the first one that occurs in the upper-cased text: it returns [b]
    exactly when some token with budget [b] occurs and none of the tokens
    before it does, and nothing exactly when no token occurs.  The text
    "HIGHEST" gets 120 minutes, the HIGHEST budget, although HIGH (240)
    occurs in it too. *)
Theorem get_sla_minutes_first_match (p : string) :
  p ≠ "" →
  SLA_MINUTES.*1 = ["HIGHEST"; "HIGH"; "MEDIUM"; "LOW"; "LOWEST"]
  ∧ (∀ b : Z,
       get_sla_minutes (Some p) = Some b ↔
       ∃ (i : nat) (key : string),
         SLA_MINUTES !! i = Some (key, b)
         ∧ is_substring key (upper p)
         ∧ ∀ (j : nat) (kv : string * Z),
             (j < i)%nat → SLA_MINUTES !! j = Some kv →
             ¬ is_substring kv.1 (upper p))
  ∧ (get_sla_minutes (Some p) = None ↔
     ∀ kv, kv ∈ SLA_MINUTES → ¬ is_substring kv.1 (upper p))
  ∧ get_sla_minutes (Some "HIGHEST") = Some 120
  ∧ SLA_MINUTES !! 0%nat = Some ("HIGHEST", 120)
  ∧ SLA_MINUTES !! 1%nat = Some ("HIGH", 240)
  ∧ is_substring "HIGH" (upper "HIGHEST").
Proof.
  intros Hp. apply truthy_true in Hp.
  assert (get_sla_minutes (Some p) = sla_scan SLA_MINUTES (upper p)) as Hget
    by (unfold get_sla_minutes; by rewrite Hp).
  split; [done |]. split; [|split; [|repeat split]].
  - intros b. rewrite Hget, sla_scan_Some. split.
    + intros (i & key & Hi & Hk & Hj). exists i, key.
      repeat split; [done | by apply contains_spec |].
      intros j kv Hlt Hkv. apply contains_false. by apply (Hj j).
    + intros (i & key & Hi & Hk & Hj). exists i, key.
      repeat split; [done | by apply contains_spec |].
      intros j kv Hlt Hkv. apply contains_false. by apply (Hj j).
  - rewrite Hget, sla_scan_None. split.
    + intros H kv Hkv. apply contains_false. by apply H.
    + intros H kv Hkv. apply contains_false. by apply H.
  - by exists "", "EST".
Qed.

Lemma get_sla_minutes_first_match_witness :
  "Highest" ≠ ""
  ∧ (get_sla_minutes (Some "Highest") = None ↔
     ∀ kv, kv ∈ SLA_MINUTES → ¬ is_substring kv.1 (upper "Highest")).
Proof.
  split; [discriminate |].
  apply (get_sla_minutes_first_match "Highest"). discriminate.
Defined.

(** C4. With a budget [b] found, the verdict on a time to resolution [t]
    is Breached with [t - b] breach minutes exactly when [t > b], and Met
    with no breach minutes exactly when [t <= b].  So a larger [t] never
    turns Breached into Met, and [t = b + delta] with [delta > 0] gives
    exactly [delta] breach minutes.  The row's two SLA columns are this
    verdict on the row's time to resolution. *)
Theorem sla_verdict_budget (b t : Z) :
  (sla_verdict (Some b) t = (Some "Breached", t - b) ↔ t > b)
  ∧ (sla_verdict (Some b) t = (Some "Met", 0) ↔ t <= b)
  ∧ (∀ t' : Z,
       t <= t' →
       (sla_verdict (Some b) t).1 = Some "Breached" →
       (sla_verdict (Some b) t').1 = Some "Breached")
  ∧ (∀ delta : Z,
       0 < delta → sla_verdict (Some b) (b + delta) = (Some "Breached", delta))
  ∧ (∀ (key : string) (d : gmap string Z) (priority_name : option string),
       get_sla_minutes priority_name = Some b →
       (sla_status (minutes_row key d priority_name),
        time_breached_min (minutes_row key d priority_name))
       = sla_verdict (Some b)
           (time_to_resolution_min (minutes_row key d priority_name))).
Proof.
  unfold sla_verdict. repeat split.
  - destruct (Z.gtb_spec t b); [lia | done].
  - intros H. destruct (Z.gtb_spec t b); [done | lia].
  - destruct (Z.gtb_spec t b); [done | lia].
  - intros H. destruct (Z.gtb_spec t b); [lia | done].
  - intros t' Hle. destruct (Z.gtb_spec t b); [|done].
    intros _. destruct (Z.gtb_spec t' b); [done | lia].
  - intros delta Hd. destruct (Z.gtb_spec (b + delta) b); [|lia].
    f_equal. lia.
  - intros key d priority_name Hb.
    pose proof (minutes_row_fields key d priority_name) as H. simpl in H.
    destruct H as (_ & _ & _ & _ & _ & _ & _ & H). by rewrite H, Hb.
Qed.

Lemma sla_verdict_budget_witness :
  300 <= 301
  ∧ (sla_verdict (Some 240) 300).1 = Some "Breached"
  ∧ (sla_verdict (Some 240) 301).1 = Some "Breached".
Proof.
  split; [lia |]. split; [reflexivity |].
  apply (sla_verdict_budget 240 300); [lia | reflexivity].
Defined.

(** C5. The loop bodies of [src/app.py] and [src/sla.py] are not
    equivalent: on the ticket created at minute 0, moved to WORK IN
    PROGRESS at minute 90 and to COMPLETED at minute 300, resolved at
    minute 300 and processed at minute 400, both produce a row, and the
    rows differ in the per-status minutes (OPEN 90 against 0, COMPLETED 0
    against 190). *)
Theorem variants_differ :
  ∃ (parse : string → option Z) (now : Z) (issue : Issue)
    (row_app row_sla : Row),
    process_issue parse now issue = Ok row_app
    ∧ Sla.process_issue parse now issue = Ok row_sla
    ∧ (open_min row_app, wip_min row_app, review_min row_app,
       completed_min row_app, cancelled_min row_app, closed_min row_app)
      = (90, 210, 0, 0, 0, 0)
    ∧ (open_min row_sla, wip_min row_sla, review_min row_sla,
       completed_min row_sla, cancelled_min row_sla, closed_min row_sla)
      = (0, 210, 0, 190, 0, 0)
    ∧ (open_min row_app, wip_min row_app, review_min row_app,
       completed_min row_app, cancelled_min row_app, closed_min row_app)
      ≠ (open_min row_sla, wip_min row_sla, review_min row_sla,
         completed_min row_sla, cancelled_min row_sla, closed_min row_sla).
Proof.
  exists minutes_clock, (400 * 60 * usec_per_sec),
    (ticket_resolved (Some "High")).
  eexists. eexists.
  split; [vm_compute; reflexivity |].
  split; [vm_compute; reflexivity |].
  simpl. repeat split; discriminate.
Qed.

(** C6, as the specification words it, fails: on the ticket whose only
    status item has no [fromString], a status change exists, its [from] is
    absent, and the initial status is the ticket's current status CLOSED,
    so that (CLOSED, creation time) opens the timeline. *)
Lemma initial_status_not_the_from :
  collect_histories minutes_clock (changelog_histories ticket_no_from) []
  = Ok [mkChange None "WORK IN PROGRESS" 300000000]
  ∧ claimed_initial_status
      (sort_by change_time [mkChange None "WORK IN PROGRESS" 300000000])
      (fields_status_name ticket_no_from) = None
  ∧ initial_status
      (sort_by change_time [mkChange None "WORK IN PROGRESS" 300000000])
      (fields_status_name ticket_no_from) = "CLOSED"
  ∧ timeline
      (sort_by change_time [mkChange None "WORK IN PROGRESS" 300000000])
      (fields_status_name ticket_no_from) 0
    = [("CLOSED", 0); ("WORK IN PROGRESS", 300000000)]
  ∧ ¬ (∀ (status_changes : list Change) (status_name : string),
         Some (initial_status status_changes status_name)
         = claimed_initial_status status_changes status_name).
Proof.
  repeat split; try (vm_compute; reflexivity).
  intros H.
  specialize (H [mkChange None "WORK IN PROGRESS" 300000000] "Closed").
  discriminate H.
Qed.

(** C6, amended.  Let the status changes be collected from the changelog
    and sorted by time.  If there is one and the first of them (none is
    earlier) has a [from], the initial status is that [from]; if there is
    none, or the first has no [from], it is the upper-cased current status
    of the ticket.  The pair (initial status, creation time) is the first
    entry emitted exactly when the initial status is recognised, and it is
    in the timeline exactly then. *)
Theorem initial_status_rule (parse : string → option Z)
    (histories : list History) (cs : list Change)
    (status_name : string) (created_time : Z) :
  collect_histories parse histories [] = Ok cs →
  initial_status (sort_by change_time cs) status_name
  = match sort_by change_time cs with
    | c :: _ => default (upper status_name) (change_from c)
    | [] => upper status_name
    end
  ∧ (∀ c rest, sort_by change_time cs = c :: rest →
               ∀ c', c' ∈ cs → change_time c <= change_time c')
  ∧ (head (emitted (sort_by change_time cs) status_name created_time)
     = Some (initial_status (sort_by change_time cs) status_name, created_time)
     ↔ initial_status (sort_by change_time cs) status_name ∈ VALID_STATUSES)
  ∧ ((initial_status (sort_by change_time cs) status_name, created_time)
     ∈ timeline (sort_by change_time cs) status_name created_time
     ↔ initial_status (sort_by change_time cs) status_name ∈ VALID_STATUSES).
Proof.
  intros Hcs.
  assert (Forall from_ok (sort_by change_time cs)) as Hfrom.
  { rewrite sort_by_perm. eapply collect_histories_from; [|exact Hcs].
    constructor. }
  assert (∀ e, e ∈ omap (λ change,
                 if bool_decide (change_to change ∈ VALID_STATUSES)
                 then Some (change_to change, change_time change)
                 else None) (sort_by change_time cs)
               → e.1 ∈ VALID_STATUSES) as Hvalid.
  { intros e He. apply list_elem_of_omap in He as (c & _ & Hc).
    destruct (bool_decide_reflect (change_to c ∈ VALID_STATUSES)) as [Hv|];
      [|done].
    by injection Hc as <-. }
  split; [|split; [|split]].
  - unfold initial_status. destruct (sort_by change_time cs) as [|c rest]; [done |].
    apply Forall_cons in Hfrom as [Hc _]. unfold from_ok in Hc.
    destruct (change_from c) as [f|]; [|done]. by rewrite (Hc f eq_refl).
  - intros c rest Heq c' Hin. by eapply (sort_by_head_least change_time).
  - unfold emitted.
    destruct (bool_decide_reflect
                (initial_status (sort_by change_time cs) status_name
                 ∈ VALID_STATUSES)) as [Hv|Hv]; simpl; [done |].
    split; [|done]. intros Hhd. exfalso. apply Hv.
    destruct (omap _ (sort_by change_time cs)) as [|e rest] eqn:He;
      [done |].
    simpl in Hhd. injection Hhd as ->.
    apply (Hvalid (initial_status (sort_by change_time cs) status_name,
                   created_time)).
    left.
  - unfold timeline.
    rewrite (sort_by_perm snd
               (emitted (sort_by change_time cs) status_name created_time)).
    unfold emitted.
    destruct (bool_decide_reflect
                (initial_status (sort_by change_time cs) status_name
                 ∈ VALID_STATUSES)) as [Hv|Hv]; simpl.
    + split; [done | intros _; left].
    + split; [|done]. intros Hin. by apply Hvalid in Hin.
Qed.

Lemma initial_status_rule_witness :
  collect_histories minutes_clock (changelog_histories ticket_no_from) []
  = Ok [mkChange None "WORK IN PROGRESS" 300000000]
  ∧ initial_status
      (sort_by change_time [mkChange None "WORK IN PROGRESS" 300000000])
      "Closed"
    = match sort_by change_time [mkChange None "WORK IN PROGRESS" 300000000]
      with
      | c :: _ => default (upper "Closed") (change_from c)
      | [] => upper "Closed"
      end.
Proof.
  assert (collect_histories minutes_clock
            (changelog_histories ticket_no_from) []
          = Ok [mkChange None "WORK IN PROGRESS" 300000000]) as H
    by (vm_compute; reflexivity).
  split; [exact H |].
  apply (initial_status_rule minutes_clock
           (changelog_histories ticket_no_from)
           [mkChange None "WORK IN PROGRESS" 300000000] "Closed" 0 H).
Defined.

(** C7. When the priority is absent, or when none of the five tokens
    occurs in the upper-cased priority text, no budget is found and the
    verdict is absent with zero breach minutes, whatever the time to
    resolution.  A ticket with such a priority gets these two columns
    whenever it yields a row, and it yields a row as soon as the parser
    accepts the timestamps handed to it: the SLA step raises nothing. *)
Theorem unknown_priority_verdict (priority_name : option string) :
  (priority_name = None
   ∨ ∃ p, priority_name = Some p
          ∧ ∀ kv, kv ∈ SLA_MINUTES → ¬ is_substring kv.1 (upper p)) →
  get_sla_minutes priority_name = None
  ∧ (∀ t : Z, sla_verdict (get_sla_minutes priority_name) t = (None, 0))
  ∧ (∀ (parse : string → option Z) (now : Z) (issue : Issue),
       fields_priority_name issue = priority_name →
       (∀ row, process_issue parse now issue = Ok row →
               sla_status row = None ∧ time_breached_min row = 0)
       ∧ ((∀ text, parsed_text issue text → parse text ≠ None) →
          ∃ row, process_issue parse now issue = Ok row)).
Proof.
  intros Hprio.
  assert (get_sla_minutes priority_name = None) as Hnone.
  { destruct Hprio as [-> | (p & -> & Hp)]; [done |].
    unfold get_sla_minutes. destruct (truthy p); [|done].
    change (sla_scan SLA_MINUTES (upper p) = None).
    apply sla_scan_None. intros kv Hkv. apply contains_false. by apply Hp. }
  split; [done |]. split; [by rewrite Hnone |].
  intros parse now issue Hissue. split.
  - intros row Hrow.
    apply process_issue_Ok in Hrow as (ct & rt & cs & _ & _ & _ & ->).
    pose proof (minutes_row_fields (issue_key issue)
                  (time_in_status
                     (timeline (sort_by change_time cs)
                        (fields_status_name issue) ct) rt)
                  (fields_priority_name issue)) as H.
    simpl in H. destruct H as (_ & _ & _ & _ & _ & _ & _ & H).
    rewrite Hissue in *. rewrite Hnone in H. simpl in H.
    injection H as H1 H2. by split.
  - intros Hparse.
    destruct (process_issue parse now issue) as [row|e] eqn:Hres;
      [by exists row |].
    apply process_issue_Raise in Hres as (text & Htext & Hp & _).
    by destruct (Hparse text Htext).
Qed.

Lemma unknown_priority_verdict_witness :
  (Some "Urgent" = None
   ∨ ∃ p, Some "Urgent" = Some p
          ∧ ∀ kv, kv ∈ SLA_MINUTES → ¬ is_substring kv.1 (upper p))
  ∧ get_sla_minutes (Some "Urgent") = None.
Proof.
  assert (Some "Urgent" = None
          ∨ ∃ p, Some "Urgent" = Some p
                 ∧ ∀ kv, kv ∈ SLA_MINUTES → ¬ is_substring kv.1 (upper p))
    as H.
  { right. exists "Urgent". split; [reflexivity |].
    intros kv Hkv. apply contains_false. revert kv Hkv.
    apply (proj1 (sla_scan_None SLA_MINUTES (upper "Urgent"))).
    vm_compute. reflexivity. }
  split; [exact H |].
  apply (unknown_priority_verdict (Some "Urgent") H).
Defined.

(** C8. Every bucket of [time_in_status] is positive when present, so
    every value read from it is at least zero; an iteration on a segment
    whose end is not after its start (two entries with one timestamp, or
    a resolution boundary before the last entry) leaves the map as it was;
    the breach minutes of any verdict and all the minute columns of a row
    are at least zero. *)
Theorem durations_and_breach_nonneg (tl : list (string * Z))
    (resolution_time : Z) :
  (∀ (s : string) (v : Z),
     time_in_status tl resolution_time !! s = Some v → 0 < v)
  ∧ (∀ s : string, 0 <= get0 (time_in_status tl resolution_time) s)
  ∧ (∀ (acc : gmap string Z) (i : nat) (status : string) (start : Z),
       tl !! i = Some (status, start) →
       segment_end tl resolution_time i <= start →
       segment_step tl resolution_time acc i = acc)
  ∧ (∀ (sla_minutes : option Z) (t : Z), 0 <= (sla_verdict sla_minutes t).2)
  ∧ (∀ (key : string) (priority_name : option string) (row : Row),
       row = minutes_row key (time_in_status tl resolution_time)
               priority_name →
       0 <= open_min row ∧ 0 <= wip_min row ∧ 0 <= review_min row
       ∧ 0 <= completed_min row ∧ 0 <= cancelled_min row
       ∧ 0 <= closed_min row ∧ 0 <= time_to_resolution_min row
       ∧ 0 <= time_breached_min row).
Proof.
  assert (∀ s, 0 <= get0 (time_in_status tl resolution_time) s) as Hget.
  { intros s. rewrite time_in_status_get0. apply attributed_nonneg. }
  assert (∀ sla_minutes t, 0 <= (sla_verdict sla_minutes t).2) as Hbr.
  { intros [b|] t; simpl; [|done].
    destruct (Z.gtb_spec t b); simpl; lia. }
  split; [|split; [done |split; [|split; [done |]]]].
  - intros s v. rewrite time_in_status_lookup.
    destruct (Z.ltb_spec 0 (attributed s tl resolution_time)); [|done].
    intros [= <-]. done.
  - intros acc i status start Hi Hend. unfold segment_step. rewrite Hi. simpl.
    destruct (bool_decide (status ∈ FINAL_STATUSES)); [done |].
    destruct (Z.gtb_spec (segment_end tl resolution_time i) start);
      [lia | done].
  - intros key priority_name row ->.
    pose proof (minutes_row_fields key (time_in_status tl resolution_time)
                  priority_name) as H. simpl in H.
    destruct H as (-> & -> & -> & -> & -> & -> & -> & H).
    pose proof (Hbr (get_sla_minutes priority_name)
                  (int_div_60 (get0 (time_in_status tl resolution_time) "OPEN")
                   + int_div_60
                       (get0 (time_in_status tl resolution_time)
                          "WORK IN PROGRESS")
                   + int_div_60
                       (get0 (time_in_status tl resolution_time) "IN REVIEW")))
      as Hb.
    rewrite <- H in Hb. simpl in Hb.
    pose proof (Hget "OPEN"). pose proof (Hget "WORK IN PROGRESS").
    pose proof (Hget "IN REVIEW"). pose proof (Hget "COMPLETED").
    pose proof (Hget "CANCELLED"). pose proof (Hget "CANCELED").
    pose proof (Hget "CLOSED").
    repeat split; try done;
      repeat (first [apply int_div_60_nonneg | apply Z.add_nonneg_nonneg]);
      done.
Qed.

Lemma durations_and_breach_nonneg_witness :
  [("OPEN", 5); ("OPEN", 5)] !! 0%nat = Some ("OPEN", 5)
  ∧ segment_end [("OPEN", 5); ("OPEN", 5)] 3 0 <= 5
  ∧ segment_step [("OPEN", 5); ("OPEN", 5)] 3 ∅ 0 = ∅.
Proof.
  split; [reflexivity |]. split; [by vm_compute |].
  destruct (durations_and_breach_nonneg [("OPEN", 5); ("OPEN", 5)] 3)
    as (_ & _ & Hstep & _).
  apply (Hstep ∅ 0%nat "OPEN" 5); [reflexivity | by vm_compute].
Defined.

(** ** Failures *)

Lemma process_issues_fails (parse : string → option Z) (now : Z)
    (issues : list Issue) (rows : list Row) (issue : Issue) :
  issue ∈ issues →
  (∃ e, process_issue parse now issue = Raise e) →
  ∃ e, process_issues parse now issues rows = Raise e.
Proof.
  intros Hin [e He]. revert rows.
  induction issues as [|issue' rest IH]; intros rows.
  - by apply not_elem_of_nil in Hin.
  - simpl. destruct (process_issue parse now issue') as [row|e'] eqn:Hres;
      simpl; [|by exists e'].
    apply elem_of_cons in Hin as [->|Hin]; [congruence | by apply IH].
Qed.

(** C9, as the specification words it, fails: the ticket whose only
    history has a timestamp that is not a timestamp, and no status item,
    is processed without any failure, since that timestamp is never
    handed to the parser.  And where processing does fail, the exception
    tells neither the ticket nor the field: a rejected creation time of
    one ticket and a rejected resolution time of another raise the same
    exception. *)
Lemma malformed_history_time_ignored :
  has_malformed_timestamp minutes_clock ticket_odd_history
  ∧ (∃ row, process_issue minutes_clock (30 * 60 * usec_per_sec)
              ticket_odd_history = Ok row
            ∧ review_min row = 30)
  ∧ ¬ (∀ (parse : string → option Z) (now : Z) (issue : Issue),
         has_malformed_timestamp parse issue →
         ∃ e, process_issue parse now issue = Raise e)
  ∧ process_issue minutes_clock 0 ticket_bad_created
    = Raise (ParserError "yesterday")
  ∧ process_issue minutes_clock 0 ticket_bad_resolved
    = Raise (ParserError "yesterday").
Proof.
  assert (has_malformed_timestamp minutes_clock ticket_odd_history) as Hbad.
  { right; right.
    exists (mkHistory "not a date" [mkItem "assignee" None "someone"]).
    split; [left | vm_compute; reflexivity]. }
  split; [exact Hbad |]. split; [|split; [|split]].
  - eexists. split; [vm_compute; reflexivity | reflexivity].
  - intros H. destruct (H minutes_clock 0 ticket_odd_history Hbad) as [e He].
    vm_compute in He. discriminate He.
  - vm_compute; reflexivity.
  - vm_compute; reflexivity.
Qed.

(** C9, amended.  Processing a ticket fails exactly when the parser
    rejects one of the texts handed to it: the creation time, a non-empty
    resolution time, or the time of a history that holds a status item.
    The failure is the parser's exception on the rejected text; no default
    time is put in its place, no row is produced, and the run over a list
    of tickets that holds such a ticket fails as a whole. *)
Theorem process_issue_parser_errors (parse : string → option Z) (now : Z)
    (issue : Issue) :
  ((∃ e, process_issue parse now issue = Raise e) ↔
   ∃ text, parsed_text issue text ∧ parse text = None)
  ∧ (∀ e, process_issue parse now issue = Raise e →
          ∃ text, parsed_text issue text ∧ parse text = None
                  ∧ e = ParserError text)
  ∧ (∀ (issues : list Issue) (rows : list Row),
       issue ∈ issues →
       (∃ text, parsed_text issue text ∧ parse text = None) →
       ∃ e, process_issues parse now issues rows = Raise e).
Proof.
  assert ((∃ e, process_issue parse now issue = Raise e) ↔
          ∃ text, parsed_text issue text ∧ parse text = None) as Hiff.
  { split.
    - intros [e He]. apply process_issue_Raise in He as (text & H1 & H2 & _).
      by exists text.
    - intros (text & H1 & H2). by eapply process_issue_fails. }
  split; [done |]. split.
  - apply process_issue_Raise.
  - intros issues rows Hin Hbad. eapply process_issues_fails; [done |].
    by apply Hiff.
Qed.

Lemma process_issue_parser_errors_witness :
  (∃ text, parsed_text ticket_bad_created text ∧ minutes_clock text = None)
  ∧ ∃ e, process_issue minutes_clock 0 ticket_bad_created = Raise e.
Proof.
  assert (∃ text, parsed_text ticket_bad_created text
                  ∧ minutes_clock text = None) as H.
  { exists "yesterday". split; [left; reflexivity | vm_compute; reflexivity]. }
  split; [exact H |].
  apply (process_issue_parser_errors minutes_clock 0 ticket_bad_created).
  exact H.
Defined.

(** C10. Every row has 0 in the COMPLETED, the CANCELLED (which adds the
    CANCELED spelling) and the CLOSED column: the row is read from a map
    built by [time_in_status], and that map never has a key that is a
    final status. *)
Theorem terminal_columns_zero (parse : string → option Z) (now : Z)
    (issue : Issue) (row : Row) :
  process_issue parse now issue = Ok row →
  completed_min row = 0 ∧ cancelled_min row = 0 ∧ closed_min row = 0
  ∧ ∃ (tl : list (string * Z)) (resolution_time : Z),
      row = minutes_row (issue_key issue)
              (time_in_status tl resolution_time)
              (fields_priority_name issue)
      ∧ ∀ s, s ∈ FINAL_STATUSES →
             time_in_status tl resolution_time !! s = None.
Proof.
  intros Hrow.
  apply process_issue_Ok in Hrow as (ct & rt & cs & _ & _ & _ & ->).
  set (tl := timeline (sort_by change_time cs) (fields_status_name issue) ct).
  assert (∀ s, s ∈ FINAL_STATUSES → time_in_status tl rt !! s = None)
    as Hnone.
  { intros s Hs. by rewrite time_in_status_lookup, attributed_final. }
  assert (∀ s, s ∈ FINAL_STATUSES → get0 (time_in_status tl rt) s = 0)
    as Hzero.
  { intros s Hs. unfold get0. by rewrite Hnone. }
  pose proof (minutes_row_fields (issue_key issue) (time_in_status tl rt)
                (fields_priority_name issue)) as H. simpl in H.
  destruct H as (_ & _ & _ & -> & -> & -> & _).
  rewrite !Hzero by (apply final_statuses_spec; tauto).
  repeat split; try done. by exists tl, rt.
Qed.

Lemma terminal_columns_zero_witness :
  process_issue minutes_clock 0 (ticket_resolved (Some "High"))
  = Ok (mkRow "GNOC-1" 90 210 0 0 0 0 300 (Some "Breached") 60)
  ∧ completed_min (mkRow "GNOC-1" 90 210 0 0 0 0 300 (Some "Breached") 60) = 0.
Proof.
  assert (process_issue minutes_clock 0 (ticket_resolved (Some "High"))
          = Ok (mkRow "GNOC-1" 90 210 0 0 0 0 300 (Some "Breached") 60)) as H
    by (vm_compute; reflexivity).
  split; [exact H |].
  apply (terminal_columns_zero minutes_clock 0
           (ticket_resolved (Some "High")) _ H).
Defined.

(** * Further properties of the code *)

(** ** The timeline of [src/app.py] *)

Lemma valid_not_final (s : string) :
  s ∈ VALID_STATUSES → s ∉ FINAL_STATUSES →
  s = "OPEN" ∨ s = "WORK IN PROGRESS" ∨ s = "IN REVIEW".
Proof.
  unfold VALID_STATUSES, FINAL_STATUSES.
  rewrite !elem_of_union, !elem_of_singleton. tauto.
Qed.

Lemma emitted_entry (status_changes : list Change) (status_name : string)
    (created_time : Z) (e : string * Z) :
  e ∈ emitted status_changes status_name created_time ↔
  e.1 ∈ VALID_STATUSES
  ∧ (e = (initial_status status_changes status_name, created_time)
     ∨ ∃ c, c ∈ status_changes ∧ e = (change_to c, change_time c)).
Proof.
  unfold emitted. rewrite elem_of_app, list_elem_of_omap. split.
  - intros [Hin | (c & Hc & He)].
    + destruct (bool_decide_reflect
                  (initial_status status_changes status_name
                   ∈ VALID_STATUSES)) as [Hv|Hv].
      * apply list_elem_of_singleton in Hin as ->. split; [done | by left].
      * by apply not_elem_of_nil in Hin.
    + destruct (bool_decide_reflect (change_to c ∈ VALID_STATUSES))
        as [Hv|Hv]; [|done].
      injection He as <-. split; [done |]. right. by exists c.
  - intros [Hv [-> | (c & Hc & ->)]]; simpl in Hv.
    + left. rewrite (bool_decide_eq_true_2 _ Hv). left.
    + right. exists c. split; [done |]. by rewrite (bool_decide_eq_true_2 _ Hv).
Qed.

Lemma timeline_elem (status_changes : list Change) (status_name : string)
    (created_time : Z) (e : string * Z) :
  e ∈ timeline status_changes status_name created_time ↔
  e.1 ∈ VALID_STATUSES
  ∧ (e = (initial_status status_changes status_name, created_time)
     ∨ ∃ c, c ∈ status_changes ∧ e = (change_to c, change_time c)).
Proof.
  unfold timeline.
  rewrite (sort_by_perm snd
             (emitted status_changes status_name created_time)).
  apply emitted_entry.
Qed.

Lemma omap_length_le {A B : Type} (f : A → option B) (l : list A) :
  (length (omap f l) ≤ length l)%nat.
Proof.
  induction l as [|x l IH]; simpl; [lia |].
  change (list_omap A B f l) with (omap f l).
  destruct (f x); simpl; lia.
Qed.

(** X1. Every entry of the timeline has a recognised status and is either
    the entry made from the creation time or the target and time of a
    status change; every status change with a recognised target is in the
    timeline; the timeline is empty exactly when neither the initial
    status nor any target is recognised; it has at most one entry more
    than there are status changes. *)
Theorem timeline_entries (status_changes : list Change) (status_name : string)
    (created_time : Z) :
  (∀ e : string * Z,
     e ∈ timeline status_changes status_name created_time ↔
     e.1 ∈ VALID_STATUSES
     ∧ (e = (initial_status status_changes status_name, created_time)
        ∨ ∃ c, c ∈ status_changes ∧ e = (change_to c, change_time c)))
  ∧ (timeline status_changes status_name created_time = [] ↔
     (initial_status status_changes status_name ∉ VALID_STATUSES)
     ∧ ∀ c, c ∈ status_changes → change_to c ∉ VALID_STATUSES)
  ∧ (length (timeline status_changes status_name created_time)
     ≤ S (length status_changes))%nat.
Proof.
  split; [|split].
  - intros e. apply timeline_elem.
  - split.
    + intros Hnil. split.
      * intros Hv.
        assert ((initial_status status_changes status_name, created_time)
                ∈ timeline status_changes status_name created_time) as Hin
          by (apply timeline_elem; split; [done | by left]).
        rewrite Hnil in Hin. by apply not_elem_of_nil in Hin.
      * intros c Hc Hv.
        assert ((change_to c, change_time c)
                ∈ timeline status_changes status_name created_time) as Hin
          by (apply timeline_elem; split; [done | right; by exists c]).
        rewrite Hnil in Hin. by apply not_elem_of_nil in Hin.
    + intros [Hinit Hto].
      destruct (timeline status_changes status_name created_time)
        as [|e rest] eqn:Htl; [done |].
      assert (e ∈ timeline status_changes status_name created_time) as Hin
        by (rewrite Htl; left).
      apply timeline_elem in Hin as [Hv [-> | (c & Hc & ->)]];
        simpl in Hv; [done | by destruct (Hto c Hc)].
  - unfold timeline.
    rewrite (sort_by_perm snd
               (emitted status_changes status_name created_time)).
    unfold emitted. rewrite length_app.
    pose proof (omap_length_le (λ change,
                  if bool_decide (change_to change ∈ VALID_STATUSES)
                  then Some (change_to change, change_time change)
                  else None) status_changes) as Hle.
    destruct (bool_decide _); simpl; lia.
Qed.

Lemma timeline_entries_witness :
  timeline [mkChange None "TRIAGE" 7] "Backlog" 0 = [].
Proof.
  apply (timeline_entries [mkChange None "TRIAGE" 7] "Backlog" 0).
  split.
  - by_evaluation.
  - intros c Hc. apply list_elem_of_singleton in Hc as ->. by_evaluation.
Defined.

Lemma creation_entry_position (status_changes : list Change)
    (status_name : string) (created_time : Z) :
  initial_status status_changes status_name ∈ VALID_STATUSES →
  ∃ i : nat,
    timeline status_changes status_name created_time !! i
    = Some (initial_status status_changes status_name, created_time)
    ∧ ∀ (j : nat) (e : string * Z),
        (j < i)%nat →
        timeline status_changes status_name created_time !! j = Some e →
        e.2 < created_time.
Proof.
  intros Hv. unfold timeline, emitted. rewrite (bool_decide_eq_true_2 _ Hv).
  apply (sort_by_head_position snd).
Qed.

Lemma timeline_head_creation (status_changes : list Change)
    (status_name : string) (created_time : Z) :
  initial_status status_changes status_name ∈ VALID_STATUSES →
  (∀ c, c ∈ status_changes → change_to c ∈ VALID_STATUSES →
        created_time <= change_time c) →
  head (timeline status_changes status_name created_time)
  = Some (initial_status status_changes status_name, created_time).
Proof.
  intros Hv Hlate.
  destruct (creation_entry_position status_changes status_name
              created_time Hv) as (i & Hi & Hbefore).
  destruct i as [|i]; [by rewrite <- head_lookup in Hi |].
  destruct (timeline status_changes status_name created_time !! 0%nat)
    as [e|] eqn:He.
  - pose proof (Hbefore 0%nat e ltac:(lia) He) as Hlt.
    assert (e ∈ timeline status_changes status_name created_time) as Hin
      by (by eapply list_elem_of_lookup_2).
    apply timeline_elem in Hin as [Hve [-> | (c & Hc & ->)]];
      simpl in *; [lia |].
    specialize (Hlate c Hc Hve). lia.
  - apply lookup_ge_None in He. apply lookup_lt_Some in Hi. lia.
Qed.

(** X2. When the initial status is recognised and no status change with a
    recognised target is earlier than the creation time, the timeline
    starts with the initial status at the creation time. *)
Theorem timeline_starts_at_creation (status_changes : list Change)
    (status_name : string) (created_time : Z) :
  initial_status status_changes status_name ∈ VALID_STATUSES →
  (∀ c, c ∈ status_changes → change_to c ∈ VALID_STATUSES →
        created_time <= change_time c) →
  head (timeline status_changes status_name created_time)
  = Some (initial_status status_changes status_name, created_time).
Proof. apply timeline_head_creation. Qed.

Lemma timeline_starts_at_creation_witness :
  head (timeline [mkChange (Some "OPEN") "CLOSED" 9;
                  mkChange (Some "CLOSED") "REOPENED" 2] "Closed" 1)
  = Some ("OPEN", 1).
Proof.
  apply (timeline_starts_at_creation
           [mkChange (Some "OPEN") "CLOSED" 9;
            mkChange (Some "CLOSED") "REOPENED" 2] "Closed" 1).
  - by_evaluation.
  - intros c Hc Hv. apply elem_of_cons in Hc as [->|Hc].
    + by vm_compute.
    + apply list_elem_of_singleton in Hc as ->. exfalso. revert Hv. by_evaluation.
Defined.

(** ** Sums of buckets *)

Lemma map_sum_empty : map_sum ∅ = 0.
Proof. unfold map_sum. apply map_fold_empty. Qed.

Lemma map_sum_delete (d : gmap string Z) (k : string) :
  map_sum d = get0 d k + map_sum (delete k d).
Proof.
  unfold map_sum, get0. destruct (d !! k) as [v|] eqn:Hk; simpl.
  - apply (map_fold_delete_L (λ _ v acc, v + acc) 0 k v d); [|done].
    intros; lia.
  - by rewrite delete_id.
Qed.


Lemma attributed_pos (s : string) (tl : list (string * Z)) (res : Z) :
  0 < attributed s tl res → (s ∉ FINAL_STATUSES) ∧ ∃ t, (s, t) ∈ tl.
Proof.
  induction tl as [|[status start] rest IH]; simpl; [lia |].
  match goal with |- context [if ?c then _ else _] => destruct c eqn:Hc end.
  - intros _. apply andb_prop in Hc as [Hc _]. apply andb_prop in Hc as [H1 H2].
    apply bool_decide_eq_true_1 in H1 as ->.
    apply negb_true_iff, bool_decide_eq_false_1 in H2.
    split; [done |]. exists start. left.
  - intros H. destruct IH as [Hf [t Ht]]; [lia |].
    split; [done |]. exists t. by right.
Qed.

(** X3. In the map built from a ticket's timeline, only OPEN, WORK IN
    PROGRESS and IN REVIEW can be keys, so the three columns that make the
    time to resolution are read from buckets that hold all the time
    recorded: the sum of all the buckets is the sum of these three. *)
Theorem buckets_are_working_time (status_changes : list Change)
    (status_name : string) (created_time resolution_time : Z) :
  (∀ (s : string) (v : Z),
     time_in_status (timeline status_changes status_name created_time)
       resolution_time !! s = Some v →
     s = "OPEN" ∨ s = "WORK IN PROGRESS" ∨ s = "IN REVIEW")
  ∧ map_sum (time_in_status
               (timeline status_changes status_name created_time)
               resolution_time)
    = get0 (time_in_status
              (timeline status_changes status_name created_time)
              resolution_time) "OPEN"
      + get0 (time_in_status
                (timeline status_changes status_name created_time)
                resolution_time) "WORK IN PROGRESS"
      + get0 (time_in_status
                (timeline status_changes status_name created_time)
                resolution_time) "IN REVIEW".
Proof.
  set (tl := timeline status_changes status_name created_time).
  set (m := time_in_status tl resolution_time).
  assert (∀ s v, m !! s = Some v →
                 s = "OPEN" ∨ s = "WORK IN PROGRESS" ∨ s = "IN REVIEW")
    as Hkeys.
  { intros s v. unfold m. rewrite time_in_status_lookup.
    destruct (Z.ltb_spec 0 (attributed s tl resolution_time)) as [Hpos|];
      [|done].
    intros _. apply attributed_pos in Hpos as [Hnf [t Ht]].
    apply timeline_elem in Ht as [Hv _]. by apply valid_not_final. }
  split; [done |].
  rewrite (map_sum_delete m "OPEN").
  rewrite (map_sum_delete (delete "OPEN" m) "WORK IN PROGRESS").
  rewrite (map_sum_delete (delete "WORK IN PROGRESS" (delete "OPEN" m))
             "IN REVIEW").
  assert (delete "IN REVIEW" (delete "WORK IN PROGRESS" (delete "OPEN" m))
          = ∅) as ->.
  { apply map_eq. intros s. rewrite lookup_empty, !lookup_delete.
    repeat case_decide; try done.
    destruct (m !! s) as [v|] eqn:Hs; [|done].
    destruct (Hkeys s v Hs) as [-> | [-> | ->]]; done. }
  rewrite map_sum_empty. unfold get0.
  rewrite !lookup_delete. repeat case_decide; try done. lia.
Qed.

Lemma buckets_are_working_time_witness :
  time_in_status (timeline [] "Open" 0) 5 !! "OPEN" = Some 5
  ∧ ("OPEN" = "OPEN" ∨ "OPEN" = "WORK IN PROGRESS" ∨ "OPEN" = "IN REVIEW").
Proof.
  assert (time_in_status (timeline [] "Open" 0) 5 !! "OPEN" = Some 5) as H
    by (vm_compute; reflexivity).
  split; [exact H |].
  destruct (buckets_are_working_time [] "Open" 0 5) as [Hkeys _].
  exact (Hkeys "OPEN" 5 H).
Defined.

(** ** The budget table *)

Lemma lowest_contains_low (text : string) :
  contains "LOWEST" text = true → contains "LOW" text = true.
Proof.
  rewrite !contains_spec. intros (pre & post & ->).
  by exists pre, ("EST" +:+ post).
Qed.

(** X4. The budget found is always 120, 240, 1440 or 2880 minutes: the
    LOWEST entry of the table (3600) is never returned, because LOW occurs
    in every text in which LOWEST occurs and is tried first.  A priority
    text that holds LOWEST and neither HIGH nor MEDIUM gets the LOW
    budget. *)
Theorem lowest_budget_never_returned (priority_name : option string) :
  (∀ b : Z,
     get_sla_minutes priority_name = Some b →
     b = 120 ∨ b = 240 ∨ b = 1440 ∨ b = 2880)
  ∧ (∀ p : string,
       priority_name = Some p →
       is_substring "LOWEST" (upper p) →
       ¬ is_substring "HIGH" (upper p) →
       ¬ is_substring "MEDIUM" (upper p) →
       get_sla_minutes priority_name = Some 2880).
Proof.
  split.
  - intros b. destruct priority_name as [p|]; [|done]. unfold get_sla_minutes.
    destruct (truthy p); [|done]. simpl.
    destruct (contains "HIGHEST" (upper p)); [intros [= <-]; tauto |].
    destruct (contains "HIGH" (upper p)); [intros [= <-]; tauto |].
    destruct (contains "MEDIUM" (upper p)); [intros [= <-]; tauto |].
    destruct (contains "LOW" (upper p)) eqn:Hlow; [intros [= <-]; tauto |].
    destruct (contains "LOWEST" (upper p)) eqn:Hlowest; [|done].
    apply lowest_contains_low in Hlowest. congruence.
  - intros p -> Hlowest Hhigh Hmedium. unfold get_sla_minutes.
    assert (truthy p = true) as ->.
    { rewrite <- upper_truthy. destruct Hlowest as (pre & post & ->).
      by destruct pre. }
    simpl.
    assert (contains "HIGHEST" (upper p) = false) as ->.
    { apply contains_false. intros (pre & post & Heq). apply Hhigh.
      exists pre, ("EST" +:+ post). by rewrite Heq. }
    apply contains_false in Hhigh as ->.
    apply contains_false in Hmedium as ->.
    apply contains_spec in Hlowest. by rewrite (lowest_contains_low _ Hlowest).
Qed.

Lemma lowest_budget_never_returned_witness :
  get_sla_minutes (Some "P5 - Lowest") = Some 2880.
Proof.
  destruct (lowest_budget_never_returned (Some "P5 - Lowest")) as [_ H].
  apply (H "P5 - Lowest" eq_refl).
  - by exists "P5 - ", "".
  - apply contains_false. vm_compute. reflexivity.
  - apply contains_false. vm_compute. reflexivity.
Defined.

(** ** Letter case *)







(** ** The SLA columns of a row *)

(** X6. In every row the two SLA columns agree with each other and with
    the budget: the status is Breached exactly when the breach minutes are
    positive, it is absent exactly when no budget is found, and with a
    budget [b] the breach minutes are [max 0 (t - b)] for the row's time
    to resolution [t]. *)
Theorem row_sla_columns_agree (key : string) (d : gmap string Z)
    (priority_name : option string) :
  (sla_status (minutes_row key d priority_name) = Some "Breached" ↔
   0 < time_breached_min (minutes_row key d priority_name))
  ∧ (sla_status (minutes_row key d priority_name) = None ↔
     get_sla_minutes priority_name = None)
  ∧ (∀ b : Z,
       get_sla_minutes priority_name = Some b →
       time_breached_min (minutes_row key d priority_name)
       = Z.max 0 (time_to_resolution_min (minutes_row key d priority_name) - b)
       ∧ (sla_status (minutes_row key d priority_name) = Some "Met" ↔
          time_to_resolution_min (minutes_row key d priority_name) <= b)).
Proof.
  pose proof (minutes_row_fields key d priority_name) as H. simpl in H.
  destruct H as (_ & _ & _ & _ & _ & _ & _ & H).
  set (row := minutes_row key d priority_name) in *.
  destruct (get_sla_minutes priority_name) as [b|]; simpl in H.
  - destruct (Z.gtb_spec (time_to_resolution_min row) b) as [Hgt|Hle];
      injection H as -> ->; repeat split; intros; simplify_eq; try done; lia.
  - injection H as -> ->. repeat split; intros; simplify_eq; try done; lia.
Qed.

Lemma row_sla_columns_agree_witness :
  get_sla_minutes (Some "High") = Some 240
  ∧ time_breached_min (minutes_row "K" {[ "OPEN" := 18000000000 ]} (Some "High"))
    = Z.max 0 (time_to_resolution_min
                 (minutes_row "K" {[ "OPEN" := 18000000000 ]} (Some "High"))
               - 240).
Proof.
  split; [reflexivity |].
  destruct (row_sla_columns_agree "K" {[ "OPEN" := 18000000000 ]}
              (Some "High")) as (_ & _ & H).
  apply (H 240). reflexivity.
Defined.

(** ** The time to resolution against the clock *)




Lemma int_div_60_mono (a b : Z) : a <= b → int_div_60 a <= int_div_60 b.
Proof.
  intros H. unfold int_div_60. apply Z.quot_le_mono; [done | exact H].
Qed.



(** ** What the changelog contributes *)

Lemma collect_items_status_only (parse : string → option Z) (created : string)
    (items : list Item) (acc : list Change) :
  collect_items parse created
    (filter (λ item, item_field item = "status") items) acc
  = collect_items parse created items acc.
Proof.
  revert acc. induction items as [|item rest IH]; intros acc; [done |].
  rewrite filter_cons. simpl.
  destruct (String.eqb_spec (item_field item) "status") as [Hf|Hf].
  - rewrite decide_True by done. simpl.
    rewrite (proj2 (String.eqb_eq _ _) Hf).
    destruct (parser_parse parse created); simpl; [apply IH | done].
  - rewrite decide_False by done. apply IH.
Qed.

Lemma collect_histories_status_only (parse : string → option Z)
    (histories : list History) (acc : list Change) :
  collect_histories parse (status_histories histories) acc
  = collect_histories parse histories acc.
Proof.
  unfold status_histories. revert acc.
  induction histories as [|h rest IH]; intros acc; [done |].
  rewrite fmap_cons, filter_cons.
  change (collect_histories parse (h :: rest) acc)
    with (collect_items parse (history_created h) (history_items h) acc
          ≫= collect_histories parse rest).
  rewrite <- (collect_items_status_only parse (history_created h)
                (history_items h) acc).
  destruct (decide (history_items (status_items_only h) ≠ [])) as [Hne|He].
  - simpl.
    destruct (collect_items parse (history_created h)
                (filter (λ item, item_field item = "status")
                   (history_items h)) acc); simpl; [apply IH | done].
  - apply dec_stable in He. simpl in He. rewrite He. simpl. apply IH.
Qed.

(** X8. Only status items count: the items of any other field, and the
    histories that hold no status item, can be removed from the changelog
    without changing the result, be it a row or an exception. *)
Theorem process_issue_reads_status_items_only (parse : string → option Z)
    (now : Z) (issue : Issue) :
  process_issue parse now
    (with_histories (status_histories (changelog_histories issue)) issue)
  = process_issue parse now issue.
Proof.
  unfold process_issue. simpl. by rewrite collect_histories_status_only.
Qed.

Lemma collect_items_Ok (parse : string → option Z) (created : string)
    (items : list Item) (acc cs : list Change) :
  collect_items parse created items acc = Ok cs →
  cs = acc ++ history_changes parse (mkHistory created items).
Proof.
  unfold history_changes. simpl. revert acc.
  induction items as [|item rest IH]; intros acc; simpl.
  - intros [= <-]. destruct (parse created); by rewrite app_nil_r.
  - rewrite filter_cons.
    destruct (String.eqb_spec (item_field item) "status") as [Hf|Hf].
    + rewrite decide_True by done. rewrite bind_Ok.
      intros (t & Ht & H). apply parser_parse_Ok in Ht.
      apply IH in H. rewrite Ht in *. rewrite H, fmap_cons, <- app_assoc.
      done.
    + rewrite decide_False by done. apply IH.
Qed.

Lemma collect_histories_Ok (parse : string → option Z)
    (histories : list History) (acc cs : list Change) :
  collect_histories parse histories acc = Ok cs →
  cs = acc ++ (histories ≫= history_changes parse).
Proof.
  revert acc. induction histories as [|h rest IH]; intros acc; simpl.
  - intros [= <-]. by rewrite app_nil_r.
  - rewrite bind_Ok. intros (acc' & H1 & H2).
    apply collect_items_Ok in H1. apply IH in H2.
    rewrite H2, H1, <- app_assoc. by destruct h.
Qed.

Lemma collect_histories_succeeds (parse : string → option Z)
    (histories : list History) (acc : list Change) :
  (∃ cs, collect_histories parse histories acc = Ok cs) ↔
  ∀ h, h ∈ histories → has_status_item h →
       parse (history_created h) ≠ None.
Proof.
  split.
  - intros [cs Hcs] h Hin Hitem Hp.
    destruct (collect_histories_fails parse histories acc h Hin Hitem Hp)
      as [e He].
    congruence.
  - intros Hall.
    destruct (collect_histories parse histories acc) as [cs|e] eqn:Hres;
      [by exists cs |].
    apply collect_histories_Raise in Hres as (h & Hin & Hitem & Hp & _).
    by destruct (Hall h Hin Hitem).
Qed.

Section sort_of_permutation.

Context {A : Type} (key : A → Z).

Lemma filter_key_NoDup (t : Z) (l : list A) :
  NoDup (key <$> l) → (length (filter (λ y, key y = t) l) ≤ 1)%nat.
Proof.
  induction l as [|x l IH]; [simpl; lia |].
  rewrite fmap_cons, NoDup_cons. intros [Hx Hnd]. specialize (IH Hnd).
  rewrite filter_cons. destruct (decide (key x = t)) as [<-|]; [|done].
  destruct (filter (λ y, key y = key x) l) as [|y rest] eqn:Hf; [simpl; lia |].
  exfalso. apply Hx.
  assert (y ∈ filter (λ y, key y = key x) l) as Hy by (rewrite Hf; left).
  apply list_elem_of_filter in Hy as [<- Hy].
  by apply list_elem_of_fmap_2.
Qed.

Lemma sort_by_of_permutation (l1 l2 : list A) :
  l1 ≡ₚ l2 → NoDup (key <$> l1) → sort_by key l1 = sort_by key l2.
Proof.
  intros Hperm Hnd.
  apply (stable_sorted_unique key); [apply sort_by_sorted.. |].
  intros t. rewrite !sort_by_stable.
  assert (filter (λ y, key y = t) l1 ≡ₚ filter (λ y, key y = t) l2) as Hf
    by (by rewrite Hperm).
  pose proof (filter_key_NoDup t l1 Hnd) as Hlen.
  destruct (filter (λ y, key y = t) l1) as [|a [|b rest]].
  - by apply Permutation_nil_l in Hf.
  - by apply Permutation_singleton_l in Hf.
  - simpl in Hlen. lia.
Qed.

End sort_of_permutation.

(** X9. When the status changes of a ticket have pairwise distinct
    timestamps, the order of the histories in the changelog does not
    matter: any reordering of the changelog gives the same row. *)
Theorem changelog_order_irrelevant (parse : string → option Z) (now : Z)
    (issue : Issue) (histories' : list History) (cs : list Change) :
  collect_histories parse (changelog_histories issue) [] = Ok cs →
  NoDup (change_time <$> cs) →
  histories' ≡ₚ changelog_histories issue →
  process_issue parse now (with_histories histories' issue)
  = process_issue parse now issue.
Proof.
  intros Hcs Hnd Hperm.
  assert (∃ cs', collect_histories parse histories' [] = Ok cs') as [cs' Hcs'].
  { apply collect_histories_succeeds. intros h Hin.
    rewrite Hperm in Hin. revert h Hin.
    apply (proj1 (collect_histories_succeeds parse
                    (changelog_histories issue) [])).
    by exists cs. }
  assert (sort_by change_time cs' = sort_by change_time cs) as Hsort.
  { symmetry. apply sort_by_of_permutation; [|done].
    apply collect_histories_Ok in Hcs, Hcs'. simpl in Hcs, Hcs'.
    by rewrite Hcs, Hcs', Hperm. }
  unfold process_issue. simpl. rewrite Hcs, Hcs'.
  destruct (parser_parse parse (fields_created issue)); simpl; [|done].
  destruct (resolution_boundary parse now (fields_resolutiondate issue));
    simpl; [|done].
  by rewrite Hsort.
Qed.

Lemma changelog_order_irrelevant_witness :
  process_issue minutes_clock 0
    (with_histories (reverse (changelog_histories (ticket_resolved None)))
       (ticket_resolved None))
  = process_issue minutes_clock 0 (ticket_resolved None).
Proof.
  apply (changelog_order_irrelevant minutes_clock 0 (ticket_resolved None)
           (reverse (changelog_histories (ticket_resolved None)))
           [mkChange (Some "WORK IN PROGRESS") "COMPLETED" 18000000000;
            mkChange (Some "OPEN") "WORK IN PROGRESS" 5400000000]).
  - vm_compute. reflexivity.
  - by_evaluation.
  - apply reverse_Permutation.
Defined.

(** ** The processing time *)

Lemma attributed_mono (s : string) (tl : list (string * Z)) (res res' : Z) :
  res <= res' → attributed s tl res <= attributed s tl res'.
Proof.
  intros Hle. induction tl as [|[status start] rest IH]; simpl; [lia |].
  destruct rest as [|[s' t'] rest'].
  - simpl.
    destruct (bool_decide (status = s)
              && negb (bool_decide (status ∈ FINAL_STATUSES))); simpl; [|lia].
    destruct (Z.gtb_spec res start), (Z.gtb_spec res' start); lia.
  - lia.
Qed.

Lemma sla_verdict_breach_mono (sla_minutes : option Z) (t t' : Z) :
  t <= t' → (sla_verdict sla_minutes t).2 <= (sla_verdict sla_minutes t').2.
Proof.
  intros Hle. destruct sla_minutes as [b|]; simpl; [|done].
  destruct (Z.gtb_spec t b), (Z.gtb_spec t' b); simpl; lia.
Qed.

Lemma resolution_boundary_resolved (parse : string → option Z) (now now' : Z)
    (issue : Issue) :
  resolved issue →
  resolution_boundary parse now (fields_resolutiondate issue)
  = resolution_boundary parse now' (fields_resolutiondate issue).
Proof.
  intros (text & -> & Hne). simpl. by destruct text.
Qed.

Lemma resolution_boundary_unresolved (parse : string → option Z) (now : Z)
    (issue : Issue) :
  ¬ resolved issue →
  resolution_boundary parse now (fields_resolutiondate issue) = Ok now.
Proof.
  unfold resolved. intros Hnot.
  destruct (fields_resolutiondate issue) as [text|]; [|done]. simpl.
  destruct text as [|c r]; [done |]. destruct Hnot. by exists (String c r).
Qed.

(** X10. The result for a resolved ticket does not depend on the time at
    which it is processed.  For an unresolved ticket, which is measured up
    to the processing time, processing later never fails where processing
    earlier succeeded, and none of the working columns, the time to
    resolution and the breach minutes gets smaller. *)
Theorem processing_time_dependence (parse : string → option Z) (now now' : Z)
    (issue : Issue) :
  (resolved issue →
   process_issue parse now issue = process_issue parse now' issue)
  ∧ (¬ resolved issue → now <= now' →
     ∀ row, process_issue parse now issue = Ok row →
            ∃ row', process_issue parse now' issue = Ok row'
                    ∧ open_min row <= open_min row'
                    ∧ wip_min row <= wip_min row'
                    ∧ review_min row <= review_min row'
                    ∧ time_to_resolution_min row
                      <= time_to_resolution_min row'
                    ∧ time_breached_min row <= time_breached_min row').
Proof.
  split.
  - intros Hres. unfold process_issue.
    by rewrite (resolution_boundary_resolved parse now now' issue Hres).
  - intros Hnot Hle row Hrow.
    apply process_issue_Ok in Hrow as (ct & rt & cs & Hct & Hrt & Hcs & ->).
    rewrite resolution_boundary_unresolved in Hrt by done.
    injection Hrt as <-.
    set (tl := timeline (sort_by change_time cs) (fields_status_name issue) ct).
    exists (minutes_row (issue_key issue) (time_in_status tl now')
              (fields_priority_name issue)).
    split.
    { apply process_issue_Ok. exists ct, now', cs.
      by rewrite resolution_boundary_unresolved. }
    pose proof (minutes_row_fields (issue_key issue) (time_in_status tl now)
                  (fields_priority_name issue)) as H. simpl in H.
    destruct H as (Ho & Hw & Hr & _ & _ & _ & Ht & Hv).
    pose proof (minutes_row_fields (issue_key issue) (time_in_status tl now')
                  (fields_priority_name issue)) as H'. simpl in H'.
    destruct H' as (Ho' & Hw' & Hr' & _ & _ & _ & Ht' & Hv').
    assert (∀ s, int_div_60 (get0 (time_in_status tl now) s)
                 <= int_div_60 (get0 (time_in_status tl now') s)) as Hmono.
    { intros s. apply int_div_60_mono. rewrite !time_in_status_get0.
      by apply attributed_mono. }
    pose proof (Hmono "OPEN"). pose proof (Hmono "WORK IN PROGRESS").
    pose proof (Hmono "IN REVIEW").
    assert (time_to_resolution_min
              (minutes_row (issue_key issue) (time_in_status tl now)
                 (fields_priority_name issue))
            <= time_to_resolution_min
                 (minutes_row (issue_key issue) (time_in_status tl now')
                    (fields_priority_name issue))) as Httr
      by (rewrite Ht, Ht', Ho, Ho', Hw, Hw', Hr, Hr'; lia).
    repeat split; try (rewrite ?Ho, ?Ho', ?Hw, ?Hw', ?Hr, ?Hr'; done).
    pose proof (sla_verdict_breach_mono
                  (get_sla_minutes (fields_priority_name issue)) _ _ Httr)
      as Hb.
    by rewrite <- Hv, <- Hv' in Hb.
Qed.

Lemma processing_time_dependence_witness :
  resolved (ticket_resolved (Some "High"))
  ∧ process_issue minutes_clock 0 (ticket_resolved (Some "High"))
    = process_issue minutes_clock 777 (ticket_resolved (Some "High")).
Proof.
  assert (resolved (ticket_resolved (Some "High"))) as H
    by (by exists "300").
  split; [exact H |].
  apply (processing_time_dependence minutes_clock 0 777
           (ticket_resolved (Some "High"))).
  exact H.
Defined.

(** ** The run over all tickets *)

Lemma minutes_row_key (key : string) (d : gmap string Z)
    (priority_name : option string) :
  row_issue_key (minutes_row key d priority_name) = key.
Proof.
  unfold minutes_row. by destruct (sla_verdict _ _).
Qed.

Lemma process_issues_Ok (parse : string → option Z) (now : Z)
    (issues : list Issue) (rows out : list Row) :
  process_issues parse now issues rows = Ok out ↔
  ∃ rows', out = rows ++ rows'
           ∧ Forall2 (λ issue row, process_issue parse now issue = Ok row)
               issues rows'.
Proof.
  revert rows. induction issues as [|issue rest IH]; intros rows; simpl.
  - split.
    + intros [= <-]. exists []. by rewrite app_nil_r.
    + intros (rows' & -> & H). apply Forall2_nil_inv_l in H as ->.
      by rewrite app_nil_r.
  - rewrite bind_Ok. split.
    + intros (row & Hrow & H). apply IH in H as (rows' & -> & Hall).
      exists (row :: rows'). rewrite <- app_assoc. split; [done |].
      by constructor.
    + intros (rows' & -> & H).
      apply Forall2_cons_inv_l in H as (row & rows'' & Hrow & Hall & ->).
      exists row. split; [done |]. apply IH. exists rows''.
      by rewrite <- app_assoc.
Qed.

Lemma process_issues_Raise (parse : string → option Z) (now : Z)
    (issues : list Issue) (rows : list Row) (e : exn) :
  process_issues parse now issues rows = Raise e ↔
  ∃ pre issue post,
    issues = pre ++ issue :: post
    ∧ Forall (λ i, ∃ row, process_issue parse now i = Ok row) pre
    ∧ process_issue parse now issue = Raise e.
Proof.
  revert rows. induction issues as [|issue rest IH]; intros rows; simpl.
  - split; [done |]. intros (pre & i & post & H & _). by destruct pre.
  - rewrite bind_Raise. split.
    + intros [H | (row & Hrow & H)].
      * by exists [], issue, rest.
      * apply IH in H as (pre & i & post & -> & Hpre & Hi).
        exists (issue :: pre), i, post. repeat split; [|done].
        constructor; [by exists row | done].
    + intros (pre & i & post & Heq & Hpre & Hi).
      destruct pre as [|i' pre]; simpl in Heq; injection Heq as -> ->.
      * by left.
      * apply Forall_cons in Hpre as [[row Hrow] Hpre]. right.
        exists row. split; [done |]. apply IH. by exists pre, i, post.
Qed.

(** X11. The run over the tickets succeeds exactly when every ticket is
    processed without exception; the rows are then those of the tickets,
    one per ticket, in the order of the tickets, after the rows already
    there, and each row carries the key of its ticket.  Otherwise the run
    raises the exception of the first ticket that fails, and keeps no
    row. *)
Theorem process_issues_rows (parse : string → option Z) (now : Z)
    (issues : list Issue) (rows : list Row) :
  (∀ out : list Row,
     process_issues parse now issues rows = Ok out ↔
     ∃ rows', out = rows ++ rows'
              ∧ Forall2 (λ issue row, process_issue parse now issue = Ok row)
                  issues rows')
  ∧ (∀ out : list Row,
       process_issues parse now issues rows = Ok out →
       row_issue_key <$> out
       = (row_issue_key <$> rows) ++ (issue_key <$> issues))
  ∧ (∀ e : exn,
       process_issues parse now issues rows = Raise e ↔
       ∃ pre issue post,
         issues = pre ++ issue :: post
         ∧ Forall (λ i, ∃ row, process_issue parse now i = Ok row) pre
         ∧ process_issue parse now issue = Raise e).
Proof.
  split; [|split].
  - intros out. apply process_issues_Ok.
  - intros out Hout. apply process_issues_Ok in Hout as (rows' & -> & Hall).
    rewrite fmap_app. f_equal.
    induction Hall as [|issue row rest rows'' Hrow Hall IH]; [done |].
    rewrite !fmap_cons, IH. f_equal.
    apply process_issue_Ok in Hrow as (ct & rt & cs & _ & _ & _ & ->).
    apply minutes_row_key.
  - intros e. apply process_issues_Raise.
Qed.

Lemma process_issues_rows_witness :
  process_issues minutes_clock 0
    [ticket_odd_history; ticket_bad_created; ticket_bad_resolved] []
  = Raise (ParserError "yesterday")
  ∧ ∃ pre issue post,
      [ticket_odd_history; ticket_bad_created; ticket_bad_resolved]
      = pre ++ issue :: post
      ∧ Forall (λ i, ∃ row, process_issue minutes_clock 0 i = Ok row) pre
      ∧ process_issue minutes_clock 0 issue = Raise (ParserError "yesterday").
Proof.
  assert (process_issues minutes_clock 0
            [ticket_odd_history; ticket_bad_created; ticket_bad_resolved] []
          = Raise (ParserError "yesterday")) as H
    by (vm_compute; reflexivity).
  split; [exact H |].
  destruct (process_issues_rows minutes_clock 0
              [ticket_odd_history; ticket_bad_created; ticket_bad_resolved] [])
    as (_ & _ & Hraise).
  apply (proj1 (Hraise (ParserError "yesterday")) H).
Defined.

(** ** The variant of [src/sla.py] *)

Lemma sla_segment_step_middle (pre rest : list (string * Z)) (status : string)
    (start now : Z) (acc : gmap string Z) :
  Sla.segment_step (pre ++ (status, start) :: rest) now acc (length pre)
  = <[status := get0 acc status
                + (match rest with
                   | (_, t) :: _ => t
                   | [] => now
                   end - start)]> acc.
Proof.
  unfold Sla.segment_step. rewrite list_lookup_middle by done.
  by rewrite segment_end_middle.
Qed.





Lemma sla_fold_agree (pre tl : list (string * Z)) (now : Z)
    (acc1 acc2 : gmap string Z) (s : string) :
  StronglySorted (key_le snd) tl → Forall (λ e, e.2 <= now) tl →
  Forall (λ e, e.1 ∉ FINAL_STATUSES) tl →
  get0 acc1 s = get0 acc2 s →
  get0 (foldl (Sla.segment_step (pre ++ tl) now) acc1
          (seq (length pre) (length tl))) s
  = get0 (foldl (segment_step (pre ++ tl) now) acc2
            (seq (length pre) (length tl))) s.
Proof.
  intros Hs. revert pre acc1 acc2.
  induction Hs as [|[status start] rest Hs IH Hall];
    intros pre acc1 acc2 Hnow Hnf Hacc; [done |].
  apply Forall_cons in Hnow as [Hstart Hnow].
  apply Forall_cons in Hnf as [Hstatus Hnf]. simpl in Hstart, Hstatus.
  simpl length. simpl seq. simpl foldl.
  rewrite sla_segment_step_middle.
  unfold segment_step at 2. rewrite list_lookup_middle by done.
  rewrite segment_end_middle. simpl.
  rewrite (bool_decide_eq_false_2 _ Hstatus).
  replace (pre ++ (status, start) :: rest)
    with ((pre ++ [(status, start)]) ++ rest)
    by (by rewrite <- app_assoc).
  replace (S (length pre)) with (length (pre ++ [(status, start)]))
    by (rewrite length_app; simpl; lia).
  apply IH; [done | done |].
  set (end_ := match rest with (_, t) :: _ => t | [] => now end).
  assert (start <= end_) as Hle.
  { unfold end_. destruct rest as [|[s' t'] rest']; [done |].
    apply Forall_cons in Hall as [Hle _]. exact Hle. }
  destruct (Z.gtb_spec end_ start).
  - rewrite !get0_insert. destruct (decide (status = s)) as [->|]; [lia | done].
  - rewrite get0_insert. destruct (decide (status = s)) as [->|]; [lia | done].
Qed.

(** X13. The two variants read the same durations from a timeline that is
    in time order, ends no later than the boundary and holds no final
    status: they part only on final statuses, on segments of negative
    length and on how the timeline and the boundary are chosen. *)
Theorem variants_agree_without_final (tl : list (string * Z)) (now : Z)
    (s : string) :
  StronglySorted (key_le snd) tl → Forall (λ e, e.2 <= now) tl →
  Forall (λ e, e.1 ∉ FINAL_STATUSES) tl →
  get0 (Sla.time_in_status tl now) s = get0 (time_in_status tl now) s.
Proof.
  intros Hs Hnow Hnf. unfold Sla.time_in_status, time_in_status.
  by apply (sla_fold_agree [] tl now ∅ ∅ s).
Qed.

Lemma variants_agree_without_final_witness :
  get0 (Sla.time_in_status [("OPEN", 0); ("IN REVIEW", 4); ("OPEN", 4)] 9)
    "OPEN"
  = get0 (time_in_status [("OPEN", 0); ("IN REVIEW", 4); ("OPEN", 4)] 9)
      "OPEN".
Proof.
  apply (variants_agree_without_final
           [("OPEN", 0); ("IN REVIEW", 4); ("OPEN", 4)] 9 "OPEN").
  - repeat constructor; unfold key_le; simpl; lia.
  - repeat constructor; simpl; lia.
  - repeat constructor; simpl; by_evaluation.
Defined.

Lemma sla_collect_items_Raise (parse : string → option Z) (created : string)
    (items : list Item) (tl : list (string * Z)) (e : exn) :
  Sla.collect_items parse created items tl = Raise e ↔
  has_kept_item (mkHistory created items)
  ∧ parse created = None ∧ e = ParserError created.
Proof.
  unfold has_kept_item. simpl. revert tl.
  induction items as [|item rest IH]; intros tl; simpl.
  - split; [done |]. intros [(item & H & _) _]. by apply not_elem_of_nil in H.
  - assert ((∃ it, it ∈ rest ∧ item_field it = "status"
                   ∧ upper (item_toString it) ∈ Sla.VALID_STATUSES)
            → ∃ it, it ∈ item :: rest ∧ item_field it = "status"
                    ∧ upper (item_toString it) ∈ Sla.VALID_STATUSES) as Hweak.
    { intros (it & Hin & Hit). exists it. split; [by right | done]. }
    destruct (String.eqb_spec (item_field item) "status") as [Hf|Hf].
    + destruct (bool_decide_reflect
                  (upper (item_toString item) ∈ Sla.VALID_STATUSES))
        as [Hv|Hv].
      * rewrite bind_Raise, parser_parse_Raise. split.
        -- intros [[Hp ->] | (t & Ht & H)].
           ++ split; [|done]. exists item. split; [left | done].
           ++ apply IH in H as (_ & Hp & _). apply parser_parse_Ok in Ht.
              congruence.
        -- intros (_ & Hp & ->). by left.
      * rewrite IH. split.
        -- intros (Hk & Hp & ->). split; [by apply Hweak | done].
        -- intros ((it & Hin & Hit & Hitv) & Hp & ->). split; [|done].
           apply elem_of_cons in Hin as [->|Hin]; [done |]. by exists it.
    + rewrite IH. split.
      * intros (Hk & Hp & ->). split; [by apply Hweak | done].
      * intros ((it & Hin & Hit & Hitv) & Hp & ->). split; [|done].
        apply elem_of_cons in Hin as [->|Hin]; [done |]. by exists it.
Qed.

Lemma sla_collect_histories_Raise (parse : string → option Z)
    (histories : list History) (tl : list (string * Z)) :
  (∃ e, Sla.collect_histories parse histories tl = Raise e) ↔
  ∃ h, h ∈ histories ∧ has_kept_item h ∧ parse (history_created h) = None.
Proof.
  revert tl. induction histories as [|h rest IH]; intros tl; simpl.
  - split; [by intros [e H] |]. intros (h & H & _).
    by apply not_elem_of_nil in H.
  - destruct (Sla.collect_items parse (history_created h) (history_items h) tl)
      as [tl'|e'] eqn:Hc; simpl.
    + rewrite IH. split.
      * intros (h' & Hin & H). exists h'. split; [by right | done].
      * intros (h' & Hin & Hk & Hp).
        apply elem_of_cons in Hin as [->|Hin]; [|by exists h'].
        assert (Sla.collect_items parse (history_created h) (history_items h)
                  tl = Raise (ParserError (history_created h))) as Hr.
        { apply sla_collect_items_Raise. by destruct h. }
        congruence.
    + split; [|by exists e']. intros _.
      apply sla_collect_items_Raise in Hc as (Hk & Hp & _).
      exists h. split; [left |]. by destruct h.
Qed.

(** X14. The loop body of [src/sla.py] fails exactly when the parser
    rejects the creation time, or the time of a history that holds a
    status item whose new status is recognised there.  The resolution time
    is never handed to the parser, so a ticket whose resolution time is
    not a timestamp is processed all the same. *)
Theorem sla_process_issue_errors (parse : string → option Z) (now : Z)
    (issue : Issue) :
  ((∃ e, Sla.process_issue parse now issue = Raise e) ↔
   parse (fields_created issue) = None
   ∨ ∃ h, h ∈ changelog_histories issue ∧ has_kept_item h
          ∧ parse (history_created h) = None)
  ∧ (∀ resolutiondate : option string,
       (∃ e, Sla.process_issue parse now
               (mkIssue (issue_key issue) (fields_created issue)
                  resolutiondate (fields_status_name issue)
                  (fields_priority_name issue) (changelog_histories issue))
             = Raise e)
       ↔ ∃ e, Sla.process_issue parse now issue = Raise e).
Proof.
  assert (∀ i : Issue,
            (∃ e, Sla.process_issue parse now i = Raise e) ↔
            parse (fields_created i) = None
            ∨ ∃ h, h ∈ changelog_histories i ∧ has_kept_item h
                   ∧ parse (history_created h) = None) as Hiff.
  { intros i. unfold Sla.process_issue.
    destruct (parse (fields_created i)) as [ct|] eqn:Hct.
    - rewrite (proj2 (parser_parse_Ok parse _ ct) Hct). simpl.
      rewrite <- (sla_collect_histories_Raise parse (changelog_histories i)
                    [(upper (fields_status_name i), ct)]).
      destruct (Sla.collect_histories parse (changelog_histories i)
                  [(upper (fields_status_name i), ct)]) as [tl|e]; simpl.
      + split; [by intros [e H] |]. intros [H | [e H]]; done.
      + split; [|by exists e]. intros _. right. by exists e.
    - unfold parser_parse. rewrite Hct. simpl. split; [by left |].
      intros _. by eexists. }
  split; [apply Hiff |]. intros resolutiondate. by rewrite !Hiff.
Qed.

Lemma sla_process_issue_errors_witness :
  (∃ e, Sla.process_issue minutes_clock 0 ticket_bad_resolved = Raise e)
  ↔ minutes_clock (fields_created ticket_bad_resolved) = None
    ∨ ∃ h, h ∈ changelog_histories ticket_bad_resolved ∧ has_kept_item h
           ∧ minutes_clock (history_created h) = None.
Proof.
  apply (sla_process_issue_errors minutes_clock 0 ticket_bad_resolved).
Defined.

(** X15. The SLA status of [src/sla.py]: absent exactly when no budget is
    found; with a budget [b] and a time to resolution [t], Breached
    exactly when [t > b], as in [src/app.py]; otherwise Met for a resolved
    ticket and Within SLA for an unresolved one. *)
Theorem sla_variant_status (key : string) (d : gmap string Z)
    (priority_name resolutiondate : option string) :
  (sla_status (Sla.minutes_row key d priority_name resolutiondate) = None ↔
   get_sla_minutes priority_name = None)
  ∧ (∀ b : Z,
       get_sla_minutes priority_name = Some b →
       (sla_status (Sla.minutes_row key d priority_name resolutiondate)
        = Some "Breached" ↔
        time_to_resolution_min
          (Sla.minutes_row key d priority_name resolutiondate) > b)
       ∧ (sla_status (Sla.minutes_row key d priority_name resolutiondate)
          = Some "Breached" ↔
          (sla_verdict (Some b)
             (time_to_resolution_min
                (Sla.minutes_row key d priority_name resolutiondate))).1
          = Some "Breached")
       ∧ (sla_status (Sla.minutes_row key d priority_name resolutiondate)
          = Some "Met" ↔
          time_to_resolution_min
            (Sla.minutes_row key d priority_name resolutiondate) <= b
          ∧ ∃ text, resolutiondate = Some text ∧ text ≠ "")
       ∧ (sla_status (Sla.minutes_row key d priority_name resolutiondate)
          = Some "Within SLA" ↔
          time_to_resolution_min
            (Sla.minutes_row key d priority_name resolutiondate) <= b
          ∧ ¬ ∃ text, resolutiondate = Some text ∧ text ≠ "")).
Proof.
  assert (from_option truthy false resolutiondate = true ↔
          ∃ text, resolutiondate = Some text ∧ text ≠ "") as Hres.
  { destruct resolutiondate as [text|]; simpl.
    - rewrite truthy_true. split; [intros H; by exists text |].
      by intros (t & [= <-] & H).
    - split; [done |]. by intros (t & H & _). }
  unfold Sla.minutes_row. simpl.
  set (t := int_div_60 (get0 d "OPEN") + int_div_60 (get0 d "WORK IN PROGRESS")
            + int_div_60 (get0 d "IN REVIEW")).
  destruct (get_sla_minutes priority_name) as [b|]; [|done].
  split.
  { split; [|done]. by destruct (from_option truthy false resolutiondate). }
  intros b' [= <-]. unfold sla_verdict.
  destruct (from_option truthy false resolutiondate) eqn:Hr;
    destruct (Z.leb_spec t b), (Z.gtb_spec t b); try lia; simpl;
    repeat split; try done; try lia;
    first [ by apply Hres
          | intros [_ HR]; first [ by apply Hres in HR
                                 | destruct HR; by apply Hres ]
          | intros HR; by apply Hres in HR ].
Qed.

Lemma sla_variant_status_witness :
  get_sla_minutes (Some "Low") = Some 2880
  ∧ (sla_status (Sla.minutes_row "K" ∅ (Some "Low") None) = Some "Within SLA"
     ↔ time_to_resolution_min (Sla.minutes_row "K" ∅ (Some "Low") None)
       <= 2880
       ∧ ¬ ∃ text, (None : option string) = Some text ∧ text ≠ "").
Proof.
  split; [reflexivity |].
  destruct (sla_variant_status "K" ∅ (Some "Low") None) as [_ H].
  apply (H 2880). reflexivity.
Defined.
